(** * Timeline and splice engine of the video splicer (src/script.js)

    A shallow embedding of the pure utilities of [script.js] and of the
    part of the heap that [spliceSegments] touches.

    JavaScript numbers are modelled as exact rationals extended with
    [+Infinity], [-Infinity] and [NaN]: rounding of binary floating point
    and the sign of zero are not represented.  Finite values are canonical
    rationals ([Qc]), so equality of numbers is Leibniz equality. *)

From Stdlib Require Import QArith Qcanon Qround Lqa ZArith Lia Bool List Ascii.
From stdpp Require Import base decidable option list numbers strings pretty gmap.

Local Open Scope Z_scope.

(** ** Numbers *)

Inductive num : Type :=
  | Fin (q : Qc)
  | PInf
  | NInf
  | NaN.

Global Instance num_eq_dec : EqDecision num.
Proof. solve_decision. Defined.

Definition zero : num := Fin 0%Qc.

Definition of_Z (z : Z) : num := Fin (Qc_of_Z z).

(** the number literal [n / d] *)
Definition frac (n : Z) (d : positive) : num := Fin (Q2Qc (n # d)).

(** [Number.isFinite(x)] *)
Definition Number_isFinite (x : num) : bool :=
  match x with Fin _ => true | _ => false end.

(** truthiness of a number: [0] and [NaN] are falsy *)
Definition truthy (x : num) : bool :=
  match x with
  | Fin q => negb (bool_decide (q = 0%Qc))
  | PInf | NInf => true
  | NaN => false
  end.

(** [x || 0] *)
Definition or0 (x : num) : num := if truthy x then x else zero.

(** [x < y] and [x <= y]: any comparison with [NaN] is false *)
Definition ltb (x y : num) : bool :=
  match x, y with
  | NaN, _ | _, NaN => false
  | Fin a, Fin b => bool_decide (a < b)%Qc
  | NInf, NInf => false
  | NInf, _ => true
  | _, NInf => false
  | PInf, _ => false
  | Fin _, PInf => true
  end.

Definition leb (x y : num) : bool :=
  match x, y with
  | NaN, _ | _, NaN => false
  | Fin a, Fin b => bool_decide (a <= b)%Qc
  | NInf, _ => true
  | _, PInf => true
  | PInf, _ => false
  | Fin _, NInf => false
  end.

(** [x > y] is [y < x] *)
Definition gtb (x y : num) : bool := ltb y x.

(** [Math.max(x, y)] and [Math.min(x, y)]: [NaN] if either is [NaN] *)
Definition Math_max (x y : num) : num :=
  match x, y with
  | NaN, _ | _, NaN => NaN
  | _, _ => if ltb x y then y else x
  end.

Definition Math_min (x y : num) : num :=
  match x, y with
  | NaN, _ | _, NaN => NaN
  | _, _ => if ltb y x then y else x
  end.

Definition add (x y : num) : num :=
  match x, y with
  | NaN, _ | _, NaN => NaN
  | Fin a, Fin b => Fin (a + b)%Qc
  | PInf, NInf | NInf, PInf => NaN
  | PInf, _ | _, PInf => PInf
  | NInf, _ | _, NInf => NInf
  end.

Definition neg (x : num) : num :=
  match x with
  | Fin a => Fin (- a)%Qc
  | PInf => NInf
  | NInf => PInf
  | NaN => NaN
  end.

Definition sub (x y : num) : num := add x (neg y).

(** the sign of a number that is not [NaN]: [-1], [0] or [1] *)
Definition sign (x : num) : Z :=
  match x with
  | Fin a => if bool_decide (a < 0)%Qc then -1
             else if bool_decide (a = 0%Qc) then 0 else 1
  | PInf => 1
  | NInf => -1
  | NaN => 0
  end.

Definition inf_of_sign (s : Z) : num :=
  if s =? 0 then NaN else if s <? 0 then NInf else PInf.

Definition mul (x y : num) : num :=
  match x, y with
  | NaN, _ | _, NaN => NaN
  | Fin a, Fin b => Fin (a * b)%Qc
  | _, _ => inf_of_sign (sign x * sign y)
  end.

(** [x / y], zero taken as positive zero *)
Definition div (x y : num) : num :=
  match x, y with
  | NaN, _ | _, NaN => NaN
  | Fin a, Fin b =>
      if bool_decide (b = 0%Qc) then inf_of_sign (sign x) else Fin (a / b)%Qc
  | Fin _, _ => zero
  | _, Fin b => inf_of_sign (sign x * (if bool_decide (b < 0)%Qc then -1 else 1))
  | _, _ => NaN
  end.

(** [Math.floor(x)] *)
Definition Math_floor (x : num) : num :=
  match x with
  | Fin a => of_Z (Qfloor a)
  | _ => x
  end.

(** [clamp(value, min, max)] *)
Definition clamp (value lo hi : num) : num := Math_min (Math_max value lo) hi.

Global Arguments or0 : simpl never.
Global Arguments ltb : simpl never.
Global Arguments leb : simpl never.
Global Arguments gtb : simpl never.
Global Arguments Math_max : simpl never.
Global Arguments Math_min : simpl never.
Global Arguments add : simpl never.
Global Arguments sub : simpl never.
Global Arguments mul : simpl never.
Global Arguments div : simpl never.
Global Arguments Math_floor : simpl never.
Global Arguments clamp : simpl never.

(** ** Frame and time conversion *)

Definition DEFAULT_FPS : num := of_Z 30.

(** [normalizeFps(value, fallback = DEFAULT_FPS)]; [Number(value)] is the
    identity on numbers *)
Definition normalizeFps_with (value fallback : num) : num :=
  let parsed := value in
  if Number_isFinite parsed && gtb parsed zero then parsed else fallback.

Definition normalizeFps (value : num) : num :=
  normalizeFps_with value DEFAULT_FPS.

Definition frameToTime (frameIndex fps : num) : num :=
  let safeFps := normalizeFps fps in
  let frame := Math_max zero (Math_floor (or0 frameIndex)) in
  div frame safeFps.

Definition timeToFrame (timeSeconds fps : num) : num :=
  let safeFps := normalizeFps fps in
  let time := Math_max zero (or0 timeSeconds) in
  Math_floor (mul time safeFps).

(** ** Segments and the timeline *)

(** A segment as [createSegmentFromFile] builds it.  [seg_source] stands
    for the opaque media handle ([file], [url]); [seg_out = None] is a
    segment whose [out] property is absent. *)
Record segment : Type := Segment {
  seg_id : string;
  seg_source : string;
  seg_duration : num;
  seg_in : num;
  seg_out : option num;
  seg_label : string
}.

Global Instance segment_eq_dec : EqDecision segment.
Proof. solve_decision. Defined.

(** [Number(v)] for a property that may be absent: [Number(undefined)] is
    [NaN] *)
Definition Number (v : option num) : num :=
  match v with Some x => x | None => NaN end.

(** [{ ...segment, out: trimmedEnd }] *)
Definition with_out (s : segment) (trimmedEnd : num) : segment :=
  {| seg_id := seg_id s; seg_source := seg_source s;
     seg_duration := seg_duration s; seg_in := seg_in s;
     seg_out := Some trimmedEnd; seg_label := seg_label s |}.

Definition computeSegmentDuration (segment : option segment) : num :=
  match segment with
  | None => zero
  | Some segment =>
      let start := or0 (seg_in segment) in
      let end_ := Number (seg_out segment) in
      let full := or0 (seg_duration segment) in
      if Number_isFinite end_ && gtb end_ start then sub end_ start
      else Math_max zero (sub full start)
  end.

Record range : Type := Range {
  r_start : num;
  r_end : num;
  r_duration : num;
  r_segment : segment
}.

Record timeline : Type := Timeline {
  total : num;
  ranges : list range
}.

(** the body of the [forEach] callback of [computeTimeline] *)
Definition timeline_step (acc : timeline) (segment : segment) : timeline :=
  let duration := computeSegmentDuration (Some segment) in
  let start := total acc in
  let total' := add (total acc) duration in
  {| total := total';
     ranges := ranges acc ++ [Range start total' duration segment] |}.

Definition computeTimeline (segments : list segment) : timeline :=
  fold_left timeline_step segments {| total := zero; ranges := [] |}.

Record located : Type := Located {
  index : Z;
  segment_of : option segment;
  localTime : num;
  offset : num;
  time : num;
  total_of : num
}.

(** the [for] loop of [findSegmentAtTime], entered at index [i] with the
    ranges from [i] on; [n] is [ranges.length] *)
Fixpoint find_loop (clamped total : num) (n i : nat) (rs : list range)
  : located :=
  match rs with
  | [] => Located (-1) None zero zero clamped total
  | range :: rest =>
      if leb clamped (r_end range) || (i =? n - 1)%nat then
        let localTime := sub clamped (r_start range) in
        Located (Z.of_nat i) (Some (r_segment range)) localTime
                (r_start range) clamped total
      else find_loop clamped total n (S i) rest
  end.

Definition findSegmentAtTime (segments : list segment) (timeSeconds : num)
  : located :=
  let tl := computeTimeline segments in
  if (length (ranges tl) =? 0)%nat then Located (-1) None zero zero zero zero
  else
    let clamped := clamp (or0 timeSeconds) zero (total tl) in
    find_loop clamped (total tl) (length (ranges tl)) 0 (ranges tl).

(** [spliceSegments] on values: the copies [{ ...seg }] are equal, as
    values, to the segments they copy.  [newSegment = None] is an absent
    replacement. *)
Definition spliceSegments (segments : list segment) (cutTime : num)
    (newSegment : option segment) : list segment :=
  let current := segments in
  if (length current =? 0)%nat then
    match newSegment with Some x => [x] | None => [] end
  else
    match newSegment with
    | None => current
    | Some x =>
        let total := total (computeTimeline current) in
        let normalizedCut := clamp (or0 cutTime) zero total in
        if leb normalizedCut zero then [x]
        else
          let r := findSegmentAtTime current normalizedCut in
          match segment_of r with
          | None => current
          | Some segment =>
              if index r <? 0 then current
              else
                let next := take (Z.to_nat (index r)) current in
                let trimmedEnd := add (or0 (seg_in segment)) (localTime r) in
                let next :=
                  if gtb trimmedEnd (or0 (seg_in segment))
                  then next ++ [with_out segment trimmedEnd]
                  else next in
                next ++ [x]
          end
    end.

(** The sum of the effective durations of a list of segments, in order. *)
Definition sum_durations (segments : list segment) : num :=
  foldr (fun s acc => add (computeSegmentDuration (Some s)) acc) zero segments.

(** A segment whose [duration] and [in] are finite numbers, as the data
    model has them. *)
Definition finite_segment (s : segment) : bool :=
  Number_isFinite (seg_duration s) && Number_isFinite (seg_in s).

Definition finite_segments (segments : list segment) : Prop :=
  Forall (fun s => finite_segment s = true) segments.

(** The effective duration as a rational, for segments where it is one. *)
Definition durq (s : segment) : Qc :=
  match computeSegmentDuration (Some s) with Fin d => d | _ => 0%Qc end.

Definition sumq (segments : list segment) : Qc :=
  foldr (fun s acc => (durq s + acc)%Qc) 0%Qc segments.

(** ** Bookmarks *)

Record bookmark : Type := Bookmark {
  bm_id : string;
  bm_time : num;
  bm_frame : num;
  bm_image : string
}.

Global Instance bookmark_eq_dec : EqDecision bookmark.
Proof. solve_decision. Defined.

(** [!bookmarkId]: the identifier is absent ([None]) or the empty string *)
Definition falsy_id (bookmarkId : option string) : bool :=
  match bookmarkId with
  | None => true
  | Some s => bool_decide (s = "")
  end.

Definition resolveBookmarkTime (bookmarks : list bookmark)
    (bookmarkId : option string) : option num :=
  if falsy_id bookmarkId then None
  else
    match find (fun entry => bool_decide (Some (bm_id entry) = bookmarkId))
               bookmarks with
    | None => None
    | Some match_ =>
        if Number_isFinite (bm_time match_) then Some (bm_time match_)
        else None
    end.

(** What [createBookmark] reads besides its arguments: the clock
    ([Date.now()], an integer number of milliseconds) and one draw of
    [Math.random()]. *)
Record ambient : Type := Ambient {
  Date_now : Z;
  Math_random : Qc
}.

(** [Math.floor(Math.random() * 1000)] *)
Definition random_suffix (env : ambient) : Z :=
  Qfloor (Math_random env * Qc_of_Z 1000)%Qc.

Definition createBookmark (env : ambient) (timeSeconds fps : num)
    (imageDataUrl : option string) : bookmark :=
  let time := Math_max zero (or0 timeSeconds) in
  let frame := timeToFrame time fps in
  {| bm_id := "bm-" +:+ pretty (Date_now env) +:+ "-"
              +:+ pretty (random_suffix env);
     bm_time := time;
     bm_frame := frame;
     bm_image := default "" imageDataUrl |}.

(** The bookmark that [find] selects: the first one, in list order, whose
    id is the identifier. *)
Definition first_match (bookmarks : list bookmark) (id : string)
    (b : bookmark) : Prop :=
  exists pre post,
    bookmarks = pre ++ b :: post /\ bm_id b = id
    /\ Forall (fun b' => bm_id b' <> id) pre.

(** ** The heap that [spliceSegments] works on

    Arrays and segment objects live in a store and are passed by
    reference: an array holds the locations of its elements. *)

Definition loc : Type := positive.

Inductive object : Type :=
  | ObjSegment (s : segment)
  | ObjArray (elems : list loc).

Abbreviation heap := (gmap loc object).

(** an object or array literal: the store grows by one fresh location *)
Definition alloc (h : heap) (o : object) : heap * loc :=
  let l := fresh (dom h) in (<[l := o]> h, l).

Definition get_segment (h : heap) (l : loc) : option segment :=
  match h !! l with Some (ObjSegment s) => Some s | _ => None end.

Definition get_array (h : heap) (l : loc) : option (list loc) :=
  match h !! l with Some (ObjArray elems) => Some elems | _ => None end.

(** [arr.push(x)]: the array at [arr] is updated in place *)
Definition push (h : heap) (arr x : loc) : heap :=
  match h !! arr with
  | Some (ObjArray elems) => <[arr := ObjArray (elems ++ [x])]> h
  | _ => h
  end.

(** [.map(seg => ({ ...seg }))]: one new object per element, in order *)
Fixpoint copy_each (h : heap) (vals : list segment) : heap * list loc :=
  match vals with
  | [] => (h, [])
  | v :: rest =>
      let '(h1, l) := alloc h (ObjSegment v) in
      let '(h2, ls) := copy_each h1 rest in
      (h2, l :: ls)
  end.

(** [spliceSegments] on the store.  [segments] is the reference passed in;
    [newSegment = None] is an absent replacement.  The result is the new
    store and the reference returned; [None] stands for an element of the
    array that is not a segment object. *)
Definition spliceSegments_heap (h : heap) (segments : loc) (cutTime : num)
    (newSegment : option loc) : option (heap * loc) :=
  let '(h0, elems) :=
    match h !! segments with
    | Some (ObjArray elems) => (h, elems)
    | _ => ((alloc h (ObjArray [])).1, [])
    end in
  if (length elems =? 0)%nat then
    Some (alloc h0 (ObjArray (match newSegment with
                              | Some x => [x] | None => [] end)))
  else
    match newSegment with
    | None => Some (alloc h0 (ObjArray elems))
    | Some x =>
        current ← mapM (get_segment h0) elems;
        let total := total (computeTimeline current) in
        let normalizedCut := clamp (or0 cutTime) zero total in
        if leb normalizedCut zero then Some (alloc h0 (ObjArray [x]))
        else
          let r := findSegmentAtTime current normalizedCut in
          match segment_of r with
          | None => Some (alloc h0 (ObjArray elems))
          | Some segment =>
              if index r <? 0 then Some (alloc h0 (ObjArray elems))
              else
                let i := Z.to_nat (index r) in
                let '(h1, _) := alloc h0 (ObjArray (take i elems)) in
                let '(h2, copies) := copy_each h1 (take i current) in
                let '(h3, next) := alloc h2 (ObjArray copies) in
                let trimmedEnd := add (or0 (seg_in segment)) (localTime r) in
                let h4 :=
                  if gtb trimmedEnd (or0 (seg_in segment)) then
                    let '(h', t) :=
                      alloc h3 (ObjSegment (with_out segment trimmedEnd)) in
                    push h' next t
                  else h3 in
                Some (push h4 next x, next)
          end
    end.

(** ** Auxiliary definitions for the proofs *)

(** the ranges of a list of segments laid out from a given start *)
Fixpoint ranges_from (start : num) (segments : list segment) : list range :=
  match segments with
  | [] => []
  | s :: rest =>
      let d := computeSegmentDuration (Some s) in
      Range start (add start d) d s :: ranges_from (add start d) rest
  end.


(** ** Segments created from files *)

(** what [createSegmentFromFile] reads of a file: its name *)
Record file : Type := File { file_name : string }.

(** what [createSegmentFromFile] reads of the metadata: its [duration]
    property, absent in [{}] *)
Record metadata : Type := Metadata { md_duration : option num }.

(** [createSegmentFromFile(file, metadata)]; [url] is what
    [URL.createObjectURL(file)] returns, and [metadata = None] is a null
    metadata ([metadata?.duration] is then undefined). *)
Definition createSegmentFromFile (env : ambient) (url : string) (file : file)
    (metadata : option metadata) : segment :=
  let duration := or0 (Number (metadata ≫= md_duration)) in
  {| seg_id := "seg-" +:+ pretty (Date_now env) +:+ "-"
               +:+ pretty (random_suffix env);
     seg_source := url;
     seg_duration := duration;
     seg_in := zero;
     seg_out := Some duration;
     seg_label := if bool_decide (file_name file = "") then "Clip"
                  else file_name file |}.

(** A segment with [0 <= in <= out <= duration], all three finite. *)
Definition valid_segment (s : segment) : bool :=
  match seg_duration s, seg_in s, seg_out s with
  | Fin d, Fin i, Some (Fin o) =>
      bool_decide (0 <= i)%Qc && bool_decide (i <= o)%Qc
      && bool_decide (o <= d)%Qc
  | _, _, _ => false
  end.

(** [getSegmentOffset(segments, index)]: the loop body runs for
    [i = 0, 1, ...] while [i < index]; [segments[i]] past the end of the
    array is undefined. *)
Fixpoint getSegmentOffset_loop (segments : list segment) (offset : num)
    (i : nat) (n : nat) : num :=
  match n with
  | O => offset
  | S n' =>
      getSegmentOffset_loop segments
        (add offset (computeSegmentDuration (segments !! i))) (S i) n'
  end.

Definition getSegmentOffset (segments : list segment) (index : Z) : num :=
  getSegmentOffset_loop segments zero 0 (Z.to_nat index).

(** ** Bookmark actions of the user interface *)

(** the list that [captureFrame] stores:
    [state.bookmarks.concat(createBookmark(state.currentTime, state.fps, dataUrl))] *)
Definition captureFrame_bookmarks (env : ambient) (bookmarks : list bookmark)
    (currentTime fps : num) (dataUrl : string) : list bookmark :=
  bookmarks ++ [createBookmark env currentTime fps (Some dataUrl)].

(** the list that the remove action stores:
    [state.bookmarks.filter(entry => entry.id !== id)] *)
Definition remove_bookmarks (bookmarks : list bookmark) (id : string)
  : list bookmark :=
  filter (fun entry => bm_id entry <> id) bookmarks.

(** ** Export settings *)

Record export_settings : Type := ExportSettings {
  mimeType : string;
  baseType : string;
  extension : string
}.

(** [s.split(';')[0]]: the part of [s] before its first [";"] *)
Fixpoint split_head (s : string) : string :=
  match s with
  | EmptyString => EmptyString
  | String c s' =>
      if Ascii.eqb c ";"%char then EmptyString else String c (split_head s')
  end.

(** [getExportSettings(formatValue)].  [formatValue = None] is a value that
    is not a string; [isTypeSupported] is [MediaRecorder.isTypeSupported],
    [None] where the host has no [MediaRecorder]. *)
Definition getExportSettings (isTypeSupported : option (string -> bool))
    (formatValue : option string) : export_settings :=
  let fallback := "video/webm" in
  let mimeType :=
    match formatValue with
    | Some s => if bool_decide (s = "") then fallback else s
    | None => fallback
    end in
  let mimeType :=
    match isTypeSupported with
    | Some supported => if supported mimeType then mimeType else fallback
    | None => mimeType
    end in
  let baseType :=
    if bool_decide (split_head mimeType = "") then fallback
    else split_head mimeType in
  {| mimeType := mimeType; baseType := baseType; extension := "webm" |}.

(** strings without [";"] *)
Fixpoint no_semicolon (s : string) : bool :=
  match s with
  | EmptyString => true
  | String c s' => negb (Ascii.eqb c ";"%char) && no_semicolon s'
  end.

(** ** The timeline controller

    The video element is modelled by what the controller reads of it
    ([src], [currentTime]) and by the commands the controller issues to it,
    in program order; the commands of [onReady] are the ones issued once
    the element has fired [loadedmetadata]. *)

Record video : Type := Video {
  v_src : string;
  v_currentTime : num
}.

Inductive video_command : Type :=
  | SetSrc (url : string)
  | Load
  | SetCurrentTime (t : num)
  | Play
  | Pause.

Global Instance video_command_eq_dec : EqDecision video_command.
Proof. solve_decision. Defined.

(** [Number(segment.out) || segment.duration || 0] *)
Definition segmentEnd (segment : segment) : num :=
  if truthy (Number (seg_out segment)) then Number (seg_out segment)
  else if truthy (seg_duration segment) then seg_duration segment
  else zero.

(** [loadSegmentIntoVideo(video, segment, localTime, autoplay)]:
    [segment = None] is a missing segment, [seg_source] is [segment.url] *)
Definition loadSegmentIntoVideo (video : video) (segment : option segment)
    (localTime : num) (autoplay : bool) : list video_command :=
  match segment with
  | None => []
  | Some segment =>
      let targetTime := add (or0 (seg_in segment)) (or0 localTime) in
      let onReady :=
        SetCurrentTime (clamp targetTime zero (segmentEnd segment))
        :: (if autoplay then [Play] else []) in
      if bool_decide (v_src video <> seg_source segment)
      then SetSrc (seg_source segment) :: Load :: onReady
      else onReady
  end.

(** the variables [activeIndex], [segments] and [playing] that the closures
    of [createTimelineController] share *)
Record controller : Type := Controller {
  activeIndex : Z;
  ctl_segments : list segment;
  playing : bool
}.

(** what [sync] passes to [onTimeUpdate] *)
Record time_update : Type := TimeUpdate {
  compositeTime : num;
  segmentIndex : Z;
  tu_localTime : num
}.

(** [segments[i]] for an integer [i]: undefined outside the array *)
Definition at_index (segments : list segment) (i : Z) : option segment :=
  if i <? 0 then None else segments !! Z.to_nat i.

(** [createTimelineController(video, onTimeUpdate)]: the initial state *)
Definition createTimelineController : controller :=
  Controller 0 [] false.

(** [sync], the handler of [timeupdate]: the new state, the update passed
    to [onTimeUpdate] and the commands issued *)
Definition sync (c : controller) (video : video)
  : controller * option time_update * list video_command :=
  if (length (ctl_segments c) =? 0)%nat then (c, None, [])
  else
    match at_index (ctl_segments c) (activeIndex c) with
    | None => (c, None, [])
    | Some segment =>
        let localTime :=
          Math_max zero (sub (v_currentTime video) (or0 (seg_in segment))) in
        let offset := getSegmentOffset (ctl_segments c) (activeIndex c) in
        let compositeTime := add offset localTime in
        let update := Some (TimeUpdate compositeTime (activeIndex c) localTime) in
        let segmentEnd := segmentEnd segment in
        if leb (sub segmentEnd (frac 2 100)) (v_currentTime video) then
          if activeIndex c <? Z.of_nat (length (ctl_segments c)) - 1 then
            let activeIndex' := activeIndex c + 1 in
            (Controller activeIndex' (ctl_segments c) (playing c), update,
             loadSegmentIntoVideo video
               (at_index (ctl_segments c) activeIndex') zero (playing c))
          else
            (Controller (activeIndex c) (ctl_segments c) false, update,
             [Pause])
        else (c, update, [])
    end.

Definition setSegments (c : controller) (nextSegments : list segment)
  : controller :=
  Controller 0 nextSegments (playing c).

Definition play (c : controller) : controller * list video_command :=
  (Controller (activeIndex c) (ctl_segments c) true, [Play]).

Definition pause (c : controller) : controller * list video_command :=
  (Controller (activeIndex c) (ctl_segments c) false, [Pause]).

Definition seek (c : controller) (video : video) (timeSeconds : num)
  : controller * list video_command :=
  if (length (ctl_segments c) =? 0)%nat then (c, [])
  else
    let r := findSegmentAtTime (ctl_segments c) timeSeconds in
    (Controller (index r) (ctl_segments c) (playing c),
     loadSegmentIntoVideo video (segment_of r) (localTime r) false).

Definition getActiveIndex (c : controller) : Z := activeIndex c.

(** the active index is a valid index, unless there are no segments *)
Definition controller_ok (c : controller) : Prop :=
  ctl_segments c = []
  \/ (0 <= activeIndex c < Z.of_nat (length (ctl_segments c))).


(** * Properties *)

(** ** Arithmetic on canonical rationals through [Q] *)

Lemma Qc_eq_Q (a b : Qc) : a = b <-> (this a == this b)%Q.
Proof. split; [intros ->; reflexivity | apply Qc_is_canon]. Qed.

Lemma this_plus a b : (this (a + b)%Qc == this a + this b)%Q.
Proof. apply Qred_correct. Qed.

Lemma this_mult a b : (this (a * b)%Qc == this a * this b)%Q.
Proof. apply Qred_correct. Qed.

Lemma this_opp a : (this (- a)%Qc == - this a)%Q.
Proof. apply Qred_correct. Qed.

Lemma this_minus a b : (this (a - b)%Qc == this a - this b)%Q.
Proof. unfold Qcminus. rewrite this_plus, this_opp. reflexivity. Qed.

Lemma this_of_Z z : this (Qc_of_Z z) = inject_Z z.
Proof. reflexivity. Qed.

Lemma this_0 : this 0%Qc = 0%Q.
Proof. reflexivity. Qed.

(** Moves a goal on [Qc] to [Q], where [lra] decides linear arithmetic. *)
Ltac qc_prep :=
  repeat match goal with
  | H : @eq Qc _ _ |- _ => apply Qc_eq_Q in H
  | H : ~ @eq Qc _ _ |- _ => rewrite Qc_eq_Q in H
  | H : ~ Qclt _ _ |- _ => apply Qcnot_lt_le in H
  | H : ~ Qcle _ _ |- _ => apply Qcnot_le_lt in H
  end;
  try match goal with
  | |- @eq Qc _ _ => apply Qc_is_canon
  | |- ~ @eq Qc _ _ => rewrite Qc_eq_Q
  | |- ~ Qclt _ _ => apply Qcle_not_lt
  | |- ~ Qcle _ _ => apply Qclt_not_le
  end;
  unfold Qclt, Qcle in *;
  repeat (setoid_rewrite this_minus || setoid_rewrite this_plus
          || setoid_rewrite this_mult || setoid_rewrite this_opp);
  repeat match goal with
  | H : _ |- _ =>
      progress (rewrite ?this_minus, ?this_plus, ?this_mult, ?this_opp in H)
  end;
  rewrite ?this_of_Z, ?this_0 in *;
  change (inject_Z 0) with 0%Q in *.

Ltac qc_lra := qc_prep; lra.

(** ** Frame and time conversion: the round trip *)

Lemma or0_id x : x <> NaN -> or0 x = x.
Proof.
  unfold or0, truthy. destruct x as [a| | |]; try done.
  intros _. case_bool_decide as Ha; simpl; [|done].
  unfold zero. f_equal. subst a. by apply Qc_is_canon.
Qed.

Lemma max_zero_nonneg a : (0 <= a)%Qc -> Math_max zero (Fin a) = Fin a.
Proof.
  intros Ha. unfold Math_max, zero, ltb. case_bool_decide as H; [done|].
  f_equal. qc_lra.
Qed.

Lemma floor_of_Z z : Math_floor (of_Z z) = of_Z z.
Proof. unfold Math_floor, of_Z. do 2 f_equal. apply Qfloor_Z. Qed.

Lemma normalizeFps_pos fps :
  exists p : Qc, normalizeFps fps = Fin p /\ (0 < p)%Qc.
Proof.
  unfold normalizeFps, normalizeFps_with, gtb, ltb, zero.
  destruct fps as [a| | |]; simpl;
    try (exists (Qc_of_Z 30); split; [done | reflexivity]).
  case_bool_decide as Ha.
  - exists a. split; [done | qc_lra].
  - exists (Qc_of_Z 30). split; [done | reflexivity].
Qed.

Lemma Qc_of_Z_nonneg z : 0 <= z -> (0 <= Qc_of_Z z)%Qc.
Proof.
  intros Hz. unfold Qcle. rewrite this_of_Z, this_0.
  change 0%Q with (inject_Z 0). by rewrite <- Zle_Qle.
Qed.

Lemma frameToTime_int (f : Z) (fps : num) (p : Qc) :
  0 <= f -> normalizeFps fps = Fin p -> (0 < p)%Qc ->
  frameToTime (of_Z f) fps = Fin (Qc_of_Z f / p)%Qc.
Proof.
  intros Hf Hfps Hp. unfold frameToTime. rewrite Hfps.
  rewrite or0_id by done. rewrite floor_of_Z.
  unfold of_Z. rewrite max_zero_nonneg.
  - unfold div. case_bool_decide as H; [|done]. subst p. exfalso. qc_lra.
  - by apply Qc_of_Z_nonneg.
Qed.

Lemma frame_time_roundtrip_any (f : Z) (fps : num) :
  0 <= f -> timeToFrame (frameToTime (of_Z f) fps) fps = of_Z f.
Proof.
  intros Hf. destruct (normalizeFps_pos fps) as (p & Hfps & Hp).
  rewrite (frameToTime_int f fps p) by done.
  unfold timeToFrame. rewrite Hfps. rewrite or0_id by done.
  assert (Hne : p <> 0%Qc) by (intros ->; qc_lra).
  assert (Hq : (0 <= Qc_of_Z f / p)%Qc).
  { apply Qcmult_nonneg_nonneg; [by apply Qc_of_Z_nonneg|].
    by apply Qclt_le_weak, Qcinv_pos. }
  rewrite max_zero_nonneg by done. unfold mul.
  replace (Qc_of_Z f / p * p)%Qc with (Qc_of_Z f) by (field; done).
  apply floor_of_Z.
Qed.

(** C7: for every positive fps and every integer frame index [f >= 0],
    converting the frame to a time and back gives [f] again (in exact
    arithmetic). *)
Theorem frame_time_roundtrip (f : Z) (fps : num) :
  gtb fps zero = true -> 0 <= f ->
  timeToFrame (frameToTime (of_Z f) fps) fps = of_Z f.
Proof. intros _. apply frame_time_roundtrip_any. Qed.

Lemma frame_time_roundtrip_witness :
  timeToFrame (frameToTime (of_Z 90) (of_Z 30)) (of_Z 30) = of_Z 90.
Proof. apply (frame_time_roundtrip 90 (of_Z 30)); [by vm_compute | lia]. Defined.

(** ** Addition of extended numbers *)

Lemma add_comm x y : add x y = add y x.
Proof. destruct x, y; unfold add; try done. f_equal. ring. Qed.

Lemma add_assoc x y z : add x (add y z) = add (add x y) z.
Proof. destruct x, y, z; unfold add; try done. f_equal. ring. Qed.

Lemma add_zero_l x : add zero x = x.
Proof. destruct x; unfold add, zero; try done. f_equal. qc_lra. Qed.

Lemma add_zero_r x : add x zero = x.
Proof. rewrite add_comm. apply add_zero_l. Qed.

(** ** The timeline *)

Lemma fold_timeline_step segments t rs :
  fold_left timeline_step segments (Timeline t rs)
  = Timeline (add t (sum_durations segments)) (rs ++ ranges_from t segments).
Proof.
  revert t rs. induction segments as [|s rest IH]; intros t rs; simpl.
  - by rewrite add_zero_r, app_nil_r.
  - unfold timeline_step at 2. simpl. rewrite IH.
    by rewrite <- app_assoc, add_assoc.
Qed.

Lemma computeTimeline_eq segments :
  computeTimeline segments
  = Timeline (sum_durations segments) (ranges_from zero segments).
Proof.
  unfold computeTimeline. rewrite fold_timeline_step. by rewrite add_zero_l.
Qed.

Lemma sum_durations_app l1 l2 :
  sum_durations (l1 ++ l2) = add (sum_durations l1) (sum_durations l2).
Proof.
  induction l1 as [|s l1 IH].
  - exact (eq_sym (add_zero_l _)).
  - change (add (computeSegmentDuration (Some s)) (sum_durations (l1 ++ l2))
            = add (add (computeSegmentDuration (Some s)) (sum_durations l1))
                  (sum_durations l2)).
    rewrite IH. apply add_assoc.
Qed.

Lemma length_ranges_from start segments :
  length (ranges_from start segments) = length segments.
Proof. revert start. induction segments; intros; simpl; auto. Qed.

Lemma ranges_from_lookup segments : forall start (i : nat) s,
  segments !! i = Some s ->
  ranges_from start segments !! i
  = Some (Range (add start (sum_durations (take i segments)))
                (add (add start (sum_durations (take i segments)))
                     (computeSegmentDuration (Some s)))
                (computeSegmentDuration (Some s)) s).
Proof.
  induction segments as [|s0 rest IH]; intros start i s Hi; [done|].
  destruct i as [|i]; simpl in *.
  - injection Hi as ->. by rewrite add_zero_r.
  - rewrite (IH _ _ _ Hi).
    change (foldr _ zero (take i rest)) with (sum_durations (take i rest)).
    by rewrite !add_assoc.
Qed.

(** C5: the total of [computeTimeline] is the sum of the effective
    durations of the segments in order; range [i] starts at the sum of the
    effective durations of the segments before [i], ends at its start plus
    the effective duration of segment [i], and carries that duration and
    segment; the empty list gives no ranges and total [0]. *)
Theorem computeTimeline_spec (segments : list segment) :
  total (computeTimeline segments) = sum_durations segments
  /\ length (ranges (computeTimeline segments)) = length segments
  /\ (forall (i : nat) s, segments !! i = Some s ->
        exists r, ranges (computeTimeline segments) !! i = Some r
          /\ r_start r = sum_durations (take i segments)
          /\ r_end r = add (r_start r) (computeSegmentDuration (Some s))
          /\ r_duration r = computeSegmentDuration (Some s)
          /\ r_segment r = s)
  /\ computeTimeline [] = Timeline zero [].
Proof.
  rewrite computeTimeline_eq. simpl. split; [done|].
  split; [apply length_ranges_from|]. split; [|done].
  intros i s Hi. eexists. split; [by apply ranges_from_lookup|].
  cbn [r_start r_end r_duration r_segment]. by rewrite add_zero_l.
Qed.

(** ** Finite segments *)

Lemma or0_Fin a : or0 (Fin a) = Fin a.
Proof. by apply or0_id. Qed.

Lemma dur_finite s :
  finite_segment s = true ->
  computeSegmentDuration (Some s) = Fin (durq s) /\ (0 <= durq s)%Qc.
Proof.
  unfold finite_segment, durq, computeSegmentDuration.
  destruct s as [id src du i o lb]; simpl.
  destruct du as [b| | |], i as [a| | |]; simpl; try done. intros _.
  rewrite !or0_Fin.
  assert (Hmax : exists m, Math_max zero (sub (Fin b) (Fin a)) = Fin m /\ (0 <= m)%Qc).
  { unfold sub, neg, add, Math_max, zero, ltb. case_bool_decide as H.
    - eexists. split; [done|]. qc_lra.
    - eexists. split; [done|]. qc_lra. }
  destruct Hmax as (m & Hm & Hm0).
  destruct o as [[e| | |]|]; simpl; rewrite ?Hm; try done.
  unfold gtb, ltb. case_bool_decide as H; simpl; rewrite ?Hm; [|done].
  unfold sub, neg, add. split; [done|]. qc_lra.
Qed.

Lemma sum_finite segments :
  finite_segments segments ->
  sum_durations segments = Fin (sumq segments) /\ (0 <= sumq segments)%Qc.
Proof.
  induction 1 as [|s rest Hs _ [IH IH0]].
  - split; [done | by apply Qcle_refl].
  - destruct (dur_finite s Hs) as [Hd Hd0].
    change (sum_durations (s :: rest))
      with (add (computeSegmentDuration (Some s)) (sum_durations rest)).
    rewrite Hd, IH. split; [done|].
    change (sumq (s :: rest)) with (durq s + sumq rest)%Qc. qc_lra.
Qed.

Lemma sumq_app l1 l2 : sumq (l1 ++ l2) = (sumq l1 + sumq l2)%Qc.
Proof.
  induction l1 as [|s l1 IH].
  - simpl. ring.
  - change (durq s + sumq (l1 ++ l2) = durq s + sumq l1 + sumq l2)%Qc.
    rewrite IH. ring.
Qed.


Lemma sumq_snoc l s : sumq (l ++ [s]) = (sumq l + durq s)%Qc.
Proof. rewrite sumq_app. change (sumq [s]) with (durq s + 0)%Qc. ring. Qed.

Lemma sumq_take_S l (j : nat) s :
  l !! j = Some s -> sumq (take (S j) l) = (sumq (take j l) + durq s)%Qc.
Proof.
  intros Hj. rewrite (take_S_r _ _ _ Hj). apply sumq_snoc.
Qed.


(** ** Clamping *)

Lemma or0_not_NaN x : or0 x <> NaN.
Proof. unfold or0, truthy. destruct x; simpl; try done. by case_bool_decide. Qed.

Lemma clamp_range x T :
  x <> NaN -> (0 <= T)%Qc ->
  exists c, clamp x zero (Fin T) = Fin c /\ (0 <= c)%Qc /\ (c <= T)%Qc.
Proof.
  intros Hx HT. unfold clamp, Math_min, Math_max, zero, ltb.
  destruct x as [a| | |]; try done.
  - destruct (bool_decide (a < 0)%Qc) eqn:Ha.
    + apply bool_decide_eq_true in Ha.
      case_bool_decide; eexists; (split; [done|]); split; qc_lra.
    + apply bool_decide_eq_false in Ha.
      case_bool_decide; eexists; (split; [done|]); split; qc_lra.
  - exists T. repeat split; [done | apply Qcle_refl].
  - case_bool_decide; eexists; (split; [done|]); split; qc_lra.
Qed.

Lemma clamp_in_range a T :
  (0 <= a)%Qc -> (a <= T)%Qc -> clamp (Fin a) zero (Fin T) = Fin a.
Proof.
  intros Ha HT. unfold clamp, Math_min, Math_max, zero, ltb.
  destruct (bool_decide (a < 0)%Qc) eqn:H0.
  - apply bool_decide_eq_true in H0.
    case_bool_decide; f_equal; qc_lra.
  - apply bool_decide_eq_false in H0.
    case_bool_decide; [|done]. f_equal. qc_lra.
Qed.

Lemma clamp_PInf T : clamp PInf zero (Fin T) = Fin T.
Proof. done. Qed.

(** ** Locating a composite time *)

Lemma find_loop_spec (T : num) (c : Qc) (l : list segment) :
  finite_segments l ->
  (c <= sumq l)%Qc ->
  forall rest pre,
    l = pre ++ rest -> rest <> [] ->
    (forall k : nat, (k < length pre)%nat -> (sumq (take (S k) l) < c)%Qc) ->
    exists (j : nat) s,
      l !! j = Some s
      /\ find_loop (Fin c) T (length l) (length pre)
           (ranges_from (Fin (sumq pre)) rest)
         = Located (Z.of_nat j) (Some s) (Fin (c - sumq (take j l)))
                   (Fin (sumq (take j l))) (Fin c) T
      /\ (c <= sumq (take (S j) l))%Qc
      /\ (forall k : nat, (k < j)%nat -> (sumq (take (S k) l) < c)%Qc).
Proof.
  intros Hfin HcT.
  induction rest as [|s rest IH]; intros pre Hl Hne Hinv; [done|].
  assert (Hs : l !! length pre = Some s).
  { subst l. by rewrite list_lookup_middle. }
  assert (Htake : take (length pre) l = pre).
  { subst l. by rewrite take_app_length. }
  assert (HS : sumq (take (S (length pre)) l) = (sumq pre + durq s)%Qc).
  { by rewrite (sumq_take_S _ _ _ Hs), Htake. }
  assert (Hds : computeSegmentDuration (Some s) = Fin (durq s)).
  { apply dur_finite. unfold finite_segments in Hfin.
    rewrite Forall_forall in Hfin. apply Hfin.
    eapply list_elem_of_lookup_2, Hs. }
  cbn [ranges_from find_loop r_end r_start r_segment]. rewrite Hds.
  change (add (Fin (sumq pre)) (Fin (durq s)))
    with (Fin (sumq pre + durq s)).
  destruct (leb (Fin c) (Fin (sumq pre + durq s))
            || (length pre =? length l - 1)%nat) eqn:Htest.
  - exists (length pre), s. rewrite Htake, HS. split; [done|].
    split; [done|]. split; [|done].
    apply orb_true_iff in Htest as [Hle|Hlast].
    + unfold leb in Hle. by apply bool_decide_eq_true in Hle.
    + apply Nat.eqb_eq in Hlast.
      assert (rest = []) as ->.
      { subst l. rewrite length_app in Hlast. simpl in Hlast.
        destruct rest; [done|]. simpl in Hlast. lia. }
      subst l. by rewrite sumq_snoc in HcT.
  - apply orb_false_iff in Htest as [Hle Hlast].
    unfold leb in Hle. apply bool_decide_eq_false in Hle.
    apply Nat.eqb_neq in Hlast.
    assert (Hrest : rest <> []).
    { intros ->. subst l. rewrite length_app in Hlast. simpl in Hlast. lia. }
    destruct (IH (pre ++ [s])) as (j & s' & Hj & Hfind & Hc & Hbefore).
    + by rewrite <- app_assoc.
    + done.
    + intros k Hk. rewrite length_app in Hk. simpl in Hk.
      destruct (decide (k = length pre)) as [->|Hk'].
      * rewrite HS. qc_lra.
      * apply Hinv. lia.
    + exists j, s'. split; [done|]. split; [|done].
      rewrite length_app, sumq_snoc in Hfind. simpl in Hfind.
      by rewrite Nat.add_1_r in Hfind.
Qed.

Lemma finite_lookup l (j : nat) s :
  finite_segments l -> l !! j = Some s -> finite_segment s = true.
Proof.
  unfold finite_segments. rewrite Forall_forall. intros Hl Hj.
  apply Hl. by eapply list_elem_of_lookup_2.
Qed.

Lemma findSegmentAtTime_located l c :
  finite_segments l -> l <> [] -> (0 <= c)%Qc -> (c <= sumq l)%Qc ->
  exists (j : nat) s,
    l !! j = Some s
    /\ findSegmentAtTime l (Fin c)
       = Located (Z.of_nat j) (Some s) (Fin (c - sumq (take j l)))
                 (Fin (sumq (take j l))) (Fin c) (Fin (sumq l))
    /\ (c <= sumq (take (S j) l))%Qc
    /\ (forall k : nat, (k < j)%nat -> (sumq (take (S k) l) < c)%Qc).
Proof.
  intros Hfin Hne Hc0 HcT. unfold findSegmentAtTime.
  rewrite computeTimeline_eq. cbn [ranges total].
  rewrite length_ranges_from.
  destruct (sum_finite l Hfin) as [Hsum _]. rewrite Hsum.
  destruct (Nat.eqb_spec (length l) 0) as [H0|_].
  { destruct l; [done | simpl in H0; lia]. }
  rewrite or0_Fin, clamp_in_range by done.
  apply (find_loop_spec (Fin (sumq l)) c l Hfin HcT l []); [done..|].
  simpl. lia.
Qed.

(** What [spliceSegments] returns on a non-empty list of finite segments,
    in terms of the normalized cut [c]. *)
Lemma spliceSegments_located l t x c :
  finite_segments l -> l <> [] ->
  clamp (or0 t) zero (Fin (sumq l)) = Fin c ->
  (0 <= c)%Qc -> (c <= sumq l)%Qc ->
  ((c <= 0)%Qc /\ spliceSegments l t (Some x) = [x])
  \/ ((0 < c)%Qc /\ exists (j : nat) s,
        l !! j = Some s
        /\ findSegmentAtTime l (Fin c)
           = Located (Z.of_nat j) (Some s) (Fin (c - sumq (take j l)))
                     (Fin (sumq (take j l))) (Fin c) (Fin (sumq l))
        /\ (sumq (take j l) < c)%Qc
        /\ (c <= sumq (take (S j) l))%Qc
        /\ (forall k : nat, (k < j)%nat -> (sumq (take (S k) l) < c)%Qc)
        /\ spliceSegments l t (Some x)
           = take j l
             ++ [with_out s (add (seg_in s) (Fin (c - sumq (take j l))))]
             ++ [x]).
Proof.
  intros Hfin Hne Hclamp Hc0 HcT. unfold spliceSegments.
  destruct (Nat.eqb_spec (length l) 0) as [H0|_].
  { destruct l; [done | simpl in H0; lia]. }
  rewrite computeTimeline_eq. cbn [total].
  destruct (sum_finite l Hfin) as [Hsum _]. rewrite Hsum, Hclamp.
  change (leb (Fin c) zero) with (bool_decide (c <= 0)%Qc).
  case_bool_decide as Hcut.
  { left. done. }
  right. split; [qc_lra|].
  destruct (findSegmentAtTime_located l c Hfin Hne Hc0 HcT)
    as (j & s & Hj & Hfind & Hend & Hbefore).
  exists j, s. rewrite Hfind. cbn [segment_of index localTime].
  assert (Hstart : (sumq (take j l) < c)%Qc).
  { destruct j as [|j].
    - rewrite take_0. change (sumq []) with 0%Qc. qc_lra.
    - apply Hbefore. lia. }
  repeat (split; [done|]).
  destruct (Z.ltb_spec (Z.of_nat j) 0) as [Hneg|_]; [lia|].
  rewrite Nat2Z.id.
  pose proof (finite_lookup _ _ _ Hfin Hj) as Hs.
  unfold finite_segment in Hs. apply andb_true_iff in Hs as [_ Hin].
  destruct (seg_in s) as [a| | |] eqn:Ha; try done.
  rewrite or0_Fin. unfold add at 1, gtb, ltb.
  case_bool_decide as Hgt.
  - by rewrite <- app_assoc.
  - exfalso. qc_lra.
Qed.

(** ** Durations of trimmed segments *)




Lemma finite_in s :
  finite_segment s = true -> exists a, seg_in s = Fin a.
Proof.
  unfold finite_segment. intros [_ H]%andb_true_iff.
  destruct (seg_in s); try done. by eexists.
Qed.

Lemma total_eq l : total (computeTimeline l) = sum_durations l.
Proof. by rewrite computeTimeline_eq. Qed.

(** ** Splicing *)













(** C6, as the code has it: on a non-empty list of finite segments, a cut
    time that is at most 0 or is [NaN], or a total of 0, makes
    [spliceSegments] return the new segment alone. *)
Theorem spliceSegments_replace_all (l : list segment) (cutTime : num)
    (x : segment) :
  finite_segments l -> l <> [] ->
  leb cutTime zero = true \/ cutTime = NaN
    \/ total (computeTimeline l) = zero ->
  spliceSegments l cutTime (Some x) = [x].
Proof.
  intros Hfin Hne Hcase.
  destruct (sum_finite l Hfin) as [Hsum HT].
  destruct (clamp_range (or0 cutTime) (sumq l) (or0_not_NaN _) HT)
    as (c & Hc & Hc0 & HcT).
  destruct (spliceSegments_located l cutTime x c Hfin Hne Hc Hc0 HcT)
    as [[_ ->]|(Hpos & _)]; [done|]. exfalso.
  rewrite total_eq, Hsum in Hcase. revert Hc.
  unfold clamp, Math_min, Math_max, or0, truthy, leb, zero, ltb in *.
  destruct Hcase as [Hle|[->|[= HT0]]].
  - destruct cutTime as [a| | |]; try done.
    + apply bool_decide_eq_true in Hle.
      repeat (case_bool_decide; simpl); intros [= <-]; qc_lra.
    + repeat (case_bool_decide; simpl); intros [= <-]; qc_lra.
  - simpl. repeat (case_bool_decide; simpl); intros [= <-]; qc_lra.
  - destruct cutTime as [a| | |]; simpl;
      repeat (case_bool_decide; simpl); intros [= <-]; qc_lra.
Qed.

Lemma spliceSegments_replace_all_witness :
  let l := [Segment "base" "" (of_Z 5) (of_Z 0) (Some (of_Z 5)) "clip"] in
  let x := Segment "new" "" (of_Z 2) (of_Z 0) (Some (of_Z 2)) "clip" in
  spliceSegments l NaN (Some x) = [x].
Proof.
  intros l x. apply (spliceSegments_replace_all l NaN x).
  - by repeat constructor.
  - done.
  - right. by left.
Defined.

(** C6 fails as stated: the non-finite cut time [+Infinity] clamps to the
    total, and the prior timeline is kept. *)
Lemma spliceSegments_replace_all_counterexample :
  let l := [Segment "base" "" (of_Z 10) (of_Z 0) (Some (of_Z 10)) "clip"] in
  let x := Segment "new" "" (of_Z 6) (of_Z 0) (Some (of_Z 6)) "clip" in
  Number_isFinite PInf = false
  /\ spliceSegments l PInf (Some x) <> [x]
  /\ spliceSegments l PInf (Some x) = l ++ [x].
Proof. cbv zeta. compute_done. Qed.

(** ** Bookmarks *)

Lemma find_first_match bookmarks id :
  match find (fun entry => bool_decide (Some (bm_id entry) = Some id))
             bookmarks with
  | Some b => first_match bookmarks id b
  | None => Forall (fun b => bm_id b <> id) bookmarks
  end.
Proof.
  induction bookmarks as [|b0 rest IH]; simpl; [by constructor|].
  case_bool_decide as Hb.
  - exists [], rest. repeat split; [congruence | constructor].
  - destruct (find _ rest) as [b|].
    + destruct IH as (pre & post & -> & Hid & Hpre).
      exists (b0 :: pre), post. repeat split; [done|].
      constructor; [congruence | done].
    + constructor; [congruence | done].
Qed.

Lemma first_match_unique bookmarks id b b' :
  first_match bookmarks id b -> first_match bookmarks id b' -> b = b'.
Proof.
  intros (pre & post & -> & Hid & Hpre) (pre' & post' & Heq & Hid' & Hpre').
  revert pre' Heq Hpre'. induction pre as [|p pre IH]; intros pre' Heq Hpre'.
  - destruct pre' as [|p' pre']; simpl in Heq; [congruence|].
    injection Heq as <- _. by inversion Hpre'.
  - destruct pre' as [|p' pre']; simpl in Heq.
    + injection Heq as -> _. by inversion Hpre.
    + injection Heq as <- Heq. inversion Hpre; inversion Hpre'; subst.
      by apply (IH ltac:(done) pre').
Qed.

(** C9: [resolveBookmarkTime] returns null exactly when the identifier is
    falsy or absent, or no bookmark has it, or the time of the matching
    bookmark (the first with that id) is not a finite number; otherwise it
    returns the time of the matching bookmark. *)
Theorem resolveBookmarkTime_spec (bookmarks : list bookmark)
    (bookmarkId : option string) :
  (resolveBookmarkTime bookmarks bookmarkId = None <->
     falsy_id bookmarkId = true
     \/ Forall (fun b => Some (bm_id b) <> bookmarkId) bookmarks
     \/ exists id b, bookmarkId = Some id /\ first_match bookmarks id b
          /\ Number_isFinite (bm_time b) = false)
  /\ (resolveBookmarkTime bookmarks bookmarkId <> None ->
      exists id b, bookmarkId = Some id /\ first_match bookmarks id b
        /\ resolveBookmarkTime bookmarks bookmarkId = Some (bm_time b)).
Proof.
  unfold resolveBookmarkTime.
  destruct (falsy_id bookmarkId) eqn:Hfalsy.
  { split; [split; [by left | done] | done]. }
  destruct bookmarkId as [id|]; [|done].
  pose proof (find_first_match bookmarks id) as Hfind.
  destruct (find _ bookmarks) as [b|].
  - destruct (Number_isFinite (bm_time b)) eqn:Hfin.
    + split; [|by exists id, b]. split; [done|].
      intros [?|[Hnone|(id' & b' & [= <-] & Hb' & Hnf)]]; [done| |].
      * destruct Hfind as (pre & post & -> & Hid & _).
        apply Forall_app in Hnone as [_ Hnone].
        inversion Hnone; subst. congruence.
      * rewrite (first_match_unique _ _ _ _ Hb' Hfind) in Hnf. congruence.
    + split; [|done]. split; [|done]. intros _. right. right.
      by exists id, b.
  - split; [|done]. split; [|done]. intros _. right. left.
    eapply Forall_impl; [exact Hfind|]. simpl. congruence.
Qed.

(** ** The store *)

Lemma alloc_fresh (h : heap) o : h !! (alloc h o).2 = None.
Proof. simpl. apply not_elem_of_dom, is_fresh. Qed.

Lemma alloc_lookup (h : heap) o : (alloc h o).1 !! (alloc h o).2 = Some o.
Proof. simpl. apply lookup_insert_eq. Qed.

Lemma alloc_extends (h : heap) o : h ⊆ (alloc h o).1.
Proof. simpl. apply insert_subseteq, (alloc_fresh h o). Qed.

Lemma push_lookup_ne (h : heap) arr x l :
  l <> arr -> push h arr x !! l = h !! l.
Proof.
  intros Hne. unfold push. destruct (h !! arr) as [[|elems]|]; try done.
  by rewrite lookup_insert_ne.
Qed.

Lemma push_lookup (h : heap) arr x elems :
  h !! arr = Some (ObjArray elems) ->
  push h arr x !! arr = Some (ObjArray (elems ++ [x])).
Proof. intros H. unfold push. rewrite H. apply lookup_insert_eq. Qed.

Lemma push_extends (h0 h : heap) arr x :
  h0 !! arr = None -> h0 ⊆ h -> h0 ⊆ push h arr x.
Proof.
  intros Hnone Hsub. unfold push.
  destruct (h !! arr) as [[|elems]|]; try done.
  by apply insert_subseteq_r.
Qed.

Lemma get_segment_weaken (h h' : heap) l v :
  h ⊆ h' -> get_segment h l = Some v -> get_segment h' l = Some v.
Proof.
  unfold get_segment. intros Hsub Hl.
  destruct (h !! l) as [[s|]|] eqn:E; try done.
  by rewrite (lookup_weaken _ _ _ _ E Hsub).
Qed.

Lemma copy_each_spec vals : forall (h : heap),
  h ⊆ (copy_each h vals).1
  /\ Forall2 (fun l v => (copy_each h vals).1 !! l = Some (ObjSegment v)
                         /\ h !! l = None)
             (copy_each h vals).2 vals.
Proof.
  induction vals as [|v rest IH]; intros h; simpl; [by split|].
  destruct (IH (<[fresh (dom h) := ObjSegment v]> h)) as [Hsub Hall].
  destruct (copy_each _ rest) as [h2 ls] eqn:E. simpl in *.
  pose proof (alloc_fresh h (ObjSegment v)) as Hfresh. simpl in Hfresh.
  split.
  - etrans; [|exact Hsub]. by apply insert_subseteq.
  - constructor.
    + split; [|done]. eapply lookup_weaken; [|exact Hsub].
      apply lookup_insert_eq.
    + eapply Forall2_impl; [exact Hall|]. simpl. intros l w [Hl Hn].
      split; [done|]. apply lookup_insert_None in Hn. tauto.
Qed.

Lemma get_segment_push (h : heap) arr x l v :
  is_Some (get_array h arr) -> get_segment h l = Some v ->
  get_segment (push h arr x) l = Some v.
Proof.
  unfold get_array, get_segment. intros [elems Harr] Hl.
  destruct (decide (l = arr)) as [->|Hne].
  - destruct (h !! arr) as [[|]|]; done.
  - by rewrite push_lookup_ne.
Qed.

Lemma get_array_push (h : heap) arr x elems :
  get_array h arr = Some elems ->
  get_array (push h arr x) arr = Some (elems ++ [x]).
Proof.
  unfold get_array. intros H.
  destruct (h !! arr) as [[|e]|] eqn:E; try done. injection H as ->.
  by rewrite (push_lookup _ _ _ _ E).
Qed.

Lemma get_array_alloc (h : heap) elems :
  get_array (alloc h (ObjArray elems)).1 (alloc h (ObjArray elems)).2
  = Some elems.
Proof. unfold get_array. by rewrite alloc_lookup. Qed.

Lemma mapM_get_segment_weaken (h h' : heap) ls vals :
  h ⊆ h' -> mapM (get_segment h) ls = Some vals ->
  mapM (get_segment h') ls = Some vals.
Proof.
  intros Hsub H. apply mapM_Some_2. apply mapM_Some_1 in H.
  eapply Forall2_impl; [exact H|]. intros l v. by apply get_segment_weaken.
Qed.

Lemma mapM_take {A B} (f : A -> option B) l k (n : nat) :
  mapM f l = Some k -> mapM f (take n l) = Some (take n k).
Proof.
  intros H. apply mapM_Some_2. apply mapM_Some_1 in H.
  by apply Forall2_take.
Qed.

(** a freshly allocated array with the values it refers to *)
Lemma alloc_array_spec (h : heap) ls vals :
  mapM (get_segment h) ls = Some vals ->
  let h' := (alloc h (ObjArray ls)).1 in
  let r := (alloc h (ObjArray ls)).2 in
  h ⊆ h' /\ h !! r = None /\ get_array h' r = Some ls
  /\ mapM (get_segment h') ls = Some vals.
Proof.
  intros H h' r. subst h' r.
  split; [apply alloc_extends|]. split; [apply alloc_fresh|].
  split; [apply get_array_alloc|].
  eapply mapM_get_segment_weaken; [apply alloc_extends | done].
Qed.

(** The store version of [spliceSegments] returns, extends the store it
    was given, returns a fresh array, and that array holds the segments
    that [spliceSegments] computes on values. *)
Lemma spliceSegments_heap_spec (h : heap) segments cutTime newSegment
    elems current :
  h !! segments = Some (ObjArray elems) ->
  mapM (get_segment h) elems = Some current ->
  exists h' r elems',
    spliceSegments_heap h segments cutTime newSegment = Some (h', r)
    /\ h ⊆ h' /\ h !! r = None /\ get_array h' r = Some elems'
    /\ forall newval,
         option_Forall2 (fun x v => get_segment h x = Some v)
           newSegment newval ->
         mapM (get_segment h') elems'
         = Some (spliceSegments current cutTime newval).
Proof.
  intros Harr Hcur.
  pose proof (length_mapM _ _ _ Hcur) as Hlength.
  assert (Hsimple : forall ls,
    exists h' r elems',
      Some (alloc h (ObjArray ls)) = Some (h', r)
      /\ h ⊆ h' /\ h !! r = None /\ get_array h' r = Some elems'
      /\ forall vals, mapM (get_segment h) ls = Some vals ->
           mapM (get_segment h') elems' = Some vals).
  { intros ls.
    exists (alloc h (ObjArray ls)).1, (alloc h (ObjArray ls)).2, ls.
    split; [done|]. split; [apply alloc_extends|].
    split; [apply alloc_fresh|]. split; [apply get_array_alloc|].
    intros vals Hls. by apply alloc_array_spec. }
  unfold spliceSegments_heap. rewrite Harr.
  destruct (Nat.eqb_spec (length elems) 0) as [H0|Hlen].
  { destruct (Hsimple (match newSegment with Some x => [x] | None => [] end))
      as (h' & r & elems' & Heq & Hsub & Hfresh & Hget & Href).
    exists h', r, elems'. repeat (split; [done|]).
    intros newval Hnew. apply Href. unfold spliceSegments.
    rewrite <- Hlength, H0.
    destruct Hnew as [x v Hx|]; simpl; by rewrite ?Hx. }
  destruct newSegment as [x|].
  2:{ destruct (Hsimple elems)
        as (h' & r & elems' & Heq & Hsub & Hfresh & Hget & Href).
      exists h', r, elems'. repeat (split; [done|]).
      intros newval Hnew. inversion Hnew; subst. apply Href.
      unfold spliceSegments. rewrite <- Hlength.
      by destruct (Nat.eqb_spec (length elems) 0). }
  rewrite Hcur. cbn [mbind option_bind].
  assert (Hpure : forall v, spliceSegments current cutTime (Some v)
    = let total := total (computeTimeline current) in
      let normalizedCut := clamp (or0 cutTime) zero total in
      if leb normalizedCut zero then [v]
      else
        let r := findSegmentAtTime current normalizedCut in
        match segment_of r with
        | None => current
        | Some segment =>
            if index r <? 0 then current
            else
              let next := take (Z.to_nat (index r)) current in
              let trimmedEnd := add (or0 (seg_in segment)) (localTime r) in
              let next :=
                if gtb trimmedEnd (or0 (seg_in segment))
                then next ++ [with_out segment trimmedEnd]
                else next in
              next ++ [v]
        end).
  { intros v. unfold spliceSegments. rewrite <- Hlength.
    by destruct (Nat.eqb_spec (length elems) 0). }
  cbv zeta in Hpure.
  set (normalizedCut :=
         clamp (or0 cutTime) zero (total (computeTimeline current))) in *.
  destruct (leb normalizedCut zero).
  { destruct (Hsimple [x])
      as (h' & r & elems' & Heq & Hsub & Hfresh & Hget & Href).
    exists h', r, elems'. repeat (split; [done|]).
    intros newval Hnew. inversion Hnew as [? v Hx|]; subst.
    rewrite Hpure. apply Href. simpl. by rewrite Hx. }
  set (r := findSegmentAtTime current normalizedCut) in *.
  assert (Hkeep : exists h' r0 elems',
    Some (alloc h (ObjArray elems)) = Some (h', r0)
    /\ h ⊆ h' /\ h !! r0 = None /\ get_array h' r0 = Some elems'
    /\ forall newval,
         option_Forall2 (fun x v => get_segment h x = Some v)
           (Some x) newval ->
         mapM (get_segment h') elems' = Some current).
  { destruct (Hsimple elems)
      as (h' & r0 & elems' & Heq & Hsub & Hfresh & Hget & Href).
    exists h', r0, elems'. repeat (split; [done|]).
    intros _ _. by apply Href. }
  destruct (segment_of r) as [seg|].
  2:{ destruct Hkeep as (h' & r0 & elems' & Heq & Hsub & Hfresh & Hget & Href).
      exists h', r0, elems'. repeat (split; [done|]).
      intros newval Hnew. inversion Hnew; subst. rewrite Hpure. eauto. }
  destruct (index r <? 0).
  { destruct Hkeep as (h' & r0 & elems' & Heq & Hsub & Hfresh & Hget & Href).
    exists h', r0, elems'. repeat (split; [done|]).
    intros newval Hnew. inversion Hnew; subst. rewrite Hpure. eauto. }
  clear Hkeep Hsimple.
  set (i := Z.to_nat (index r)) in *.
  set (trimmedEnd := add (or0 (seg_in seg)) (localTime r)) in *.
  (* the slice *)
  pose proof (alloc_extends h (ObjArray (take i elems))) as Hsub1.
  destruct (alloc h (ObjArray (take i elems))) as [h1 sliced]. simpl in Hsub1.
  (* the copies *)
  destruct (copy_each_spec (take i current) h1) as [Hsub2 Hcopies].
  destruct (copy_each h1 (take i current)) as [h2 copies].
  simpl in Hsub2, Hcopies.
  (* the array of the copies *)
  pose proof (alloc_extends h2 (ObjArray copies)) as Hsub3.
  pose proof (alloc_fresh h2 (ObjArray copies)) as Hfresh3.
  pose proof (get_array_alloc h2 copies) as Hnext.
  destruct (alloc h2 (ObjArray copies)) as [h3 next].
  simpl in Hsub3, Hfresh3, Hnext.
  assert (Hsub : h ⊆ h3) by (trans h1; [done|]; by trans h2).
  assert (Hnone : h !! next = None).
  { eapply lookup_weaken_None; [exact Hfresh3|]. by trans h1. }
  assert (Hvals3 : Forall2 (fun l w => get_segment h3 l = Some w)
                     copies (take i current)).
  { eapply Forall2_impl; [exact Hcopies|].
    intros l w [Hl _]. unfold get_segment.
    by rewrite (lookup_weaken _ _ _ _ Hl Hsub3). }
  destruct (gtb trimmedEnd (or0 (seg_in seg))).
  - pose proof (alloc_extends h3 (ObjSegment (with_out seg trimmedEnd)))
      as Hsub4.
    pose proof (alloc_lookup h3 (ObjSegment (with_out seg trimmedEnd)))
      as Ht.
    destruct (alloc h3 (ObjSegment (with_out seg trimmedEnd))) as [h4 t].
    simpl in Hsub4, Ht.
    assert (Hnext4 : get_array h4 next = Some copies).
    { unfold get_array in *. destruct (h3 !! next) as [[|e]|] eqn:E; try done.
      by rewrite (lookup_weaken _ _ _ _ E Hsub4). }
    exists (push (push h4 next t) next x), next, ((copies ++ [t]) ++ [x]).
    split; [done|]. split.
    { apply push_extends; [done|]. apply push_extends; [done|]. by trans h3. }
    split; [done|]. split.
    { by apply get_array_push, get_array_push. }
    intros newval Hnew. inversion Hnew as [? v Hx|]; subst.
    rewrite Hpure, <- !app_assoc. apply mapM_Some_2.
    assert (Hget : forall l w, get_segment h4 l = Some w ->
              get_segment (push (push h4 next t) next x) l = Some w).
    { intros l w Hl. apply get_segment_push.
      - rewrite (get_array_push _ _ _ _ Hnext4). by eexists.
      - apply get_segment_push; [by eexists | done]. }
    apply Forall2_app.
    + eapply Forall2_impl; [exact Hvals3|]. intros l w Hl.
      apply Hget. by eapply get_segment_weaken.
    + repeat constructor.
      * apply Hget. unfold get_segment. by rewrite Ht.
      * apply Hget. eapply get_segment_weaken; [|exact Hx]. by trans h3.
  - exists (push h3 next x), next, (copies ++ [x]).
    split; [done|]. split; [by apply push_extends|].
    split; [done|]. split; [by apply get_array_push|].
    intros newval Hnew. inversion Hnew as [? v Hx|]; subst.
    rewrite Hpure. apply mapM_Some_2.
    assert (Hget : forall l w, get_segment h3 l = Some w ->
              get_segment (push h3 next x) l = Some w).
    { intros l w Hl. apply get_segment_push; [by eexists | done]. }
    apply Forall2_app.
    + eapply Forall2_impl; [exact Hvals3|]. intros l w Hl. by apply Hget.
    + repeat constructor. apply Hget. by eapply get_segment_weaken.
Qed.

Lemma mapM_is_Some {A B} (f : A -> option B) l :
  Forall (fun x => is_Some (f x)) l -> is_Some (mapM f l).
Proof.
  induction 1 as [|x l [y Hy] _ [k Hk]]; simpl; [by eexists|].
  rewrite Hy. simpl. rewrite Hk. by eexists.
Qed.

(** C8: [spliceSegments] returns; every object of the store it was given,
    the input array and each input segment among them, is the same
    afterwards, and the array it returns is newly allocated, not the input
    array. *)
Theorem spliceSegments_heap_frame (h : heap) (segments : loc) (cutTime : num)
    (newSegment : option loc) :
  (forall elems, h !! segments = Some (ObjArray elems) ->
     Forall (fun l => is_Some (get_segment h l)) elems) ->
  exists h' r,
    spliceSegments_heap h segments cutTime newSegment = Some (h', r)
    /\ (forall l o, h !! l = Some o -> h' !! l = Some o)
    /\ h !! r = None
    /\ is_Some (get_array h' r)
    /\ (is_Some (h !! segments) -> r <> segments).
Proof.
  intros Htyped.
  assert (Hdone : forall h' r,
    h ⊆ h' -> h !! r = None -> is_Some (get_array h' r) ->
    (forall l o, h !! l = Some o -> h' !! l = Some o)
    /\ h !! r = None /\ is_Some (get_array h' r)
    /\ forall s0, is_Some (h !! s0) -> r <> s0).
  { intros h' r Hsub Hfresh Harr. split.
    { intros l o Hl. by eapply lookup_weaken. }
    repeat (split; [done|]). intros s0 [o Ho] ->. congruence. }
  assert (Hgoal : exists h' r,
    spliceSegments_heap h segments cutTime newSegment = Some (h', r)
    /\ h ⊆ h' /\ h !! r = None /\ is_Some (get_array h' r)).
  { destruct (h !! segments) as [[s|elems]|] eqn:Hseg.
    2:{ destruct (mapM_is_Some (get_segment h) elems (Htyped _ eq_refl))
          as [current Hcur].
        destruct (spliceSegments_heap_spec h segments cutTime newSegment
                    elems current Hseg Hcur)
          as (h' & r & elems' & Heq & Hsub & Hfresh & Hget & _).
        exists h', r. rewrite Hget. repeat (split; [done|]). by eexists. }
    all: unfold spliceSegments_heap; rewrite Hseg; cbn [length Nat.eqb].
    all: eexists _, _; (split; [done|]).
    all: set (h0 := (alloc h (ObjArray [])).1).
    all: assert (Hsub0 : h ⊆ h0) by apply alloc_extends.
    all: split; [trans h0; [done | apply alloc_extends]|].
    all: split; [eapply lookup_weaken_None;
                 [apply (alloc_fresh h0 (ObjArray [])) | done]|].
    all: unfold get_array; rewrite lookup_insert_eq; by eexists. }
  destruct Hgoal as (h' & r & Heq & Hsub & Hfresh & Harr).
  exists h', r. split; [done|].
  destruct (Hdone h' r Hsub Hfresh Harr) as (H1 & H2 & H3 & H4). auto.
Qed.

Lemma spliceSegments_heap_frame_witness :
  let base := Segment "base" "" (of_Z 10) (of_Z 0) (Some (of_Z 10)) "clip" in
  let new := Segment "new" "" (of_Z 6) (of_Z 0) (Some (of_Z 6)) "clip" in
  let h : heap :=
    <[3%positive := ObjSegment new]>
      (<[2%positive := ObjArray [1%positive]]>
         (<[1%positive := ObjSegment base]> ∅)) in
  exists h' r,
    spliceSegments_heap h 2%positive (of_Z 4) (Some 3%positive) = Some (h', r)
    /\ (forall l o, h !! l = Some o -> h' !! l = Some o)
    /\ h !! r = None
    /\ is_Some (get_array h' r)
    /\ (is_Some (h !! 2%positive) -> r <> 2%positive).
Proof.
  intros base new h.
  apply (spliceSegments_heap_frame h 2%positive (of_Z 4) (Some 3%positive)).
  intros elems Helems. vm_compute in Helems. injection Helems as <-.
  repeat constructor. by eexists.
Defined.

(** ** Bookmark identifiers *)









(** ** The cases of the test-suite (tests/logic.test.js) *)

Section TestSuite.

Let seg (id : string) (duration in_ : Z) (out : option Z) : segment :=
  Segment id "" (of_Z duration) (of_Z in_) (of_Z <$> out) "Clip".

Example test_frame_time :
  frameToTime (of_Z 90) (of_Z 30) = of_Z 3
  /\ timeToFrame (of_Z 3) (of_Z 30) = of_Z 90.
Proof. compute_done. Qed.

Example test_createBookmark env :
  let bookmark :=
    createBookmark env (frac 5 2) (of_Z 20) (Some "data:image/png;base64,abc") in
  bm_time bookmark = frac 5 2
  /\ bm_frame bookmark = of_Z 50
  /\ bm_image bookmark = "data:image/png;base64,abc".
Proof. cbv zeta. unfold createBookmark. cbn [bm_time bm_frame bm_image].
  compute_done. Qed.

Example test_resolveBookmarkTime :
  let bookmarks := [Bookmark "a" (frac 12 10) zero ""; Bookmark "b" (frac 34 10) zero ""] in
  resolveBookmarkTime bookmarks (Some "b") = Some (frac 34 10)
  /\ resolveBookmarkTime bookmarks (Some "missing") = None.
Proof. cbv zeta. compute_done. Qed.

Example test_computeSegmentDuration :
  computeSegmentDuration (Some (seg "" 10 2 (Some 6))) = of_Z 4
  /\ computeSegmentDuration (Some (seg "" 10 2 None)) = of_Z 8.
Proof. compute_done. Qed.

Example test_computeTimeline :
  let timeline := computeTimeline [seg "" 5 0 (Some 5); seg "" 4 0 (Some 4)] in
  total timeline = of_Z 9 /\ length (ranges timeline) = 2%nat.
Proof. cbv zeta. compute_done. Qed.

Example test_findSegmentAtTime :
  let segments := [seg "a" 4 0 (Some 4); seg "b" 3 0 (Some 3)] in
  let result := findSegmentAtTime segments (of_Z 5) in
  index result = 1 /\ seg_id <$> segment_of result = Some "b"
  /\ localTime result = of_Z 1 /\ offset result = of_Z 4.
Proof. cbv zeta. compute_done. Qed.

Example test_splice_replaces_tail :
  let result :=
    spliceSegments [seg "base" 10 0 (Some 10)] (of_Z 4)
      (Some (seg "new" 6 0 (Some 6))) in
  result = [seg "base" 10 0 (Some 4); seg "new" 6 0 (Some 6)].
Proof. cbv zeta. compute_done. Qed.

Example test_splice_at_start :
  spliceSegments [seg "base" 5 0 (Some 5)] (of_Z 0)
    (Some (seg "new" 2 0 (Some 2)))
  = [seg "new" 2 0 (Some 2)].
Proof. compute_done. Qed.

Example test_splice_at_end :
  spliceSegments [seg "base" 5 0 (Some 5)] (of_Z 5)
    (Some (seg "new" 2 0 (Some 2)))
  = [seg "base" 5 0 (Some 5); seg "new" 2 0 (Some 2)].
Proof. compute_done. Qed.

End TestSuite.

(** * Further properties of the code *)

(** ** [clamp] and [normalizeFps] *)

(** X1: with bounds [lo <= hi] and a value that is not [NaN], [clamp]
    returns a number between the bounds, returns the value itself when it
    lies between them, and clamping the result again changes nothing. *)
Theorem clamp_bounds (v : num) (lo hi : Qc) :
  v <> NaN -> (lo <= hi)%Qc ->
  exists c,
    clamp v (Fin lo) (Fin hi) = Fin c
    /\ (lo <= c)%Qc /\ (c <= hi)%Qc
    /\ (leb (Fin lo) v && leb v (Fin hi) = true -> v = Fin c)
    /\ clamp (Fin c) (Fin lo) (Fin hi) = Fin c.
Proof.
  intros Hv Hlh.
  assert (Hfin : forall a, (lo <= a)%Qc -> (a <= hi)%Qc ->
            clamp (Fin a) (Fin lo) (Fin hi) = Fin a).
  { intros a Hla Hah. unfold clamp, Math_min, Math_max, ltb.
    destruct (bool_decide (a < lo)%Qc) eqn:H1.
    - apply bool_decide_eq_true in H1.
      case_bool_decide; f_equal; qc_lra.
    - apply bool_decide_eq_false in H1.
      case_bool_decide; [|done]. f_equal. qc_lra. }
  destruct v as [a| | |]; [| | |done].
  - destruct (decide (a < lo)%Qc) as [Hlo|Hlo];
      [|destruct (decide (hi < a)%Qc) as [Hhi|Hhi]].
    + exists lo. split.
      { unfold clamp, Math_min, Math_max, ltb.
        rewrite bool_decide_eq_true_2 by done.
        case_bool_decide; [f_equal; qc_lra | done]. }
      split; [apply Qcle_refl|]. split; [done|]. split.
      * unfold leb. intros [H1 _]%andb_true_iff.
        apply bool_decide_eq_true in H1. exfalso. qc_lra.
      * apply Hfin; [apply Qcle_refl | done].
    + exists hi. split.
      { unfold clamp, Math_min, Math_max, ltb.
        rewrite bool_decide_eq_false_2 by done.
        by rewrite bool_decide_eq_true_2. }
      split; [done|]. split; [apply Qcle_refl|]. split.
      * unfold leb. intros [_ H2]%andb_true_iff.
        apply bool_decide_eq_true in H2. exfalso. qc_lra.
      * apply Hfin; [done | apply Qcle_refl].
    + exists a. assert (lo <= a)%Qc by qc_lra. assert (a <= hi)%Qc by qc_lra.
      rewrite Hfin by done. done.
  - exists hi. split; [done|]. split; [done|]. split; [apply Qcle_refl|].
    split; [done|]. apply Hfin; [done | apply Qcle_refl].
  - exists lo. split.
    { unfold clamp, Math_min, Math_max, ltb. simpl.
      case_bool_decide; [f_equal; qc_lra | done]. }
    split; [apply Qcle_refl|]. split; [done|]. split; [done|].
    apply Hfin; [apply Qcle_refl | done].
Qed.

Lemma clamp_bounds_witness :
  exists c,
    clamp (of_Z 12) (Fin 0%Qc) (Fin (Qc_of_Z 10)) = Fin c
    /\ (0 <= c)%Qc /\ (c <= Qc_of_Z 10)%Qc
    /\ (leb (Fin 0%Qc) (of_Z 12) && leb (of_Z 12) (Fin (Qc_of_Z 10)) = true
        -> of_Z 12 = Fin c)
    /\ clamp (Fin c) (Fin 0%Qc) (Fin (Qc_of_Z 10)) = Fin c.
Proof. apply (clamp_bounds (of_Z 12) 0%Qc (Qc_of_Z 10)); done. Defined.

(** X2: [normalizeFps] always returns a finite number greater than 0: the
    value itself when that is finite and positive, the default 30
    otherwise; normalizing twice is normalizing once. *)
Theorem normalizeFps_safe (value : num) :
  (exists p, normalizeFps value = Fin p /\ (0 < p)%Qc)
  /\ (Number_isFinite value && gtb value zero = true ->
      normalizeFps value = value)
  /\ (Number_isFinite value && gtb value zero = false ->
      normalizeFps value = of_Z 30)
  /\ normalizeFps (normalizeFps value) = normalizeFps value.
Proof.
  split; [apply normalizeFps_pos|].
  unfold normalizeFps at 1 2, normalizeFps_with.
  split; [by intros ->|]. split; [by intros ->|].
  destruct (normalizeFps_pos value) as (p & -> & Hp).
  unfold normalizeFps, normalizeFps_with, gtb, ltb, zero. simpl.
  by rewrite bool_decide_eq_true_2.
Qed.

(** ** Frames and times *)

Lemma of_Z_0 : of_Z 0 = zero.
Proof. unfold of_Z, zero. f_equal. by apply Qc_is_canon. Qed.

Lemma Math_max_zero_nonpos x :
  ltb zero x = false -> x <> NaN -> Math_max zero x = zero.
Proof. unfold Math_max. destruct x; try done; by intros ->. Qed.

(** the time a frame index converts to, and the frame a time converts to,
    in terms of the normalized fps *)
Lemma frameToTime_Fin (a p : Qc) fps :
  normalizeFps fps = Fin p ->
  frameToTime (Fin a) fps = Fin (Qc_of_Z (Z.max 0 (Qfloor a)) / p)%Qc.
Proof.
  intros Hfps. unfold frameToTime. rewrite Hfps, or0_Fin.
  assert (Hp : p <> 0%Qc).
  { destruct (normalizeFps_pos fps) as (p' & Hp' & Hpos).
    rewrite Hfps in Hp'. injection Hp' as ->. intros ->. qc_lra. }
  assert (Hmax : Math_max zero (Math_floor (Fin a))
                 = of_Z (Z.max 0 (Qfloor a))).
  { unfold Math_floor. destruct (Z.max_spec 0 (Qfloor a)) as [[Hlt ->]|[Hle ->]].
    - apply max_zero_nonneg, Qc_of_Z_nonneg. lia.
    - rewrite of_Z_0. unfold Math_max, of_Z, zero, ltb.
      case_bool_decide as H; [|done]. exfalso.
      assert (0 <= Qc_of_Z (- Qfloor a))%Qc by (apply Qc_of_Z_nonneg; lia).
      qc_prep. rewrite inject_Z_opp in *. lra. }
  rewrite Hmax. unfold div, of_Z. by rewrite bool_decide_eq_false_2.
Qed.

Lemma timeToFrame_Fin (a p : Qc) fps :
  normalizeFps fps = Fin p -> (0 <= a)%Qc ->
  timeToFrame (Fin a) fps = of_Z (Qfloor (a * p)%Qc).
Proof.
  intros Hfps Ha. unfold timeToFrame. rewrite Hfps, or0_Fin.
  by rewrite max_zero_nonneg.
Qed.

Lemma timeToFrame_nonpos t fps :
  ltb zero t = false -> timeToFrame t fps = of_Z 0.
Proof.
  intros Ht. destruct (normalizeFps_pos fps) as (p & Hfps & Hp).
  unfold timeToFrame. rewrite Hfps.
  assert (Math_max zero (or0 t) = zero) as ->.
  { destruct (decide (t = NaN)) as [->|Hnan]; [done|].
    rewrite or0_id by done. by apply Math_max_zero_nonpos. }
  unfold mul, zero, Math_floor. rewrite Qcmult_0_l. done.
Qed.

Lemma timeToFrame_is_frame (t fps : num) :
  t <> PInf ->
  exists n : Z,
    0 <= n /\ timeToFrame t fps = of_Z n /\ (ltb zero t = false -> n = 0).
Proof.
  intros Ht. destruct (ltb zero t) eqn:Hpos.
  - destruct t as [a| | |]; try done.
    unfold ltb, zero in Hpos. apply bool_decide_eq_true in Hpos.
    destruct (normalizeFps_pos fps) as (p & Hfps & Hp).
    exists (Qfloor (a * p)%Qc).
    rewrite (timeToFrame_Fin a p) by (done || qc_lra).
    split; [|done].
    assert (0 <= a * p)%Qc.
    { apply Qcmult_nonneg_nonneg; qc_lra. }
    change 0 with (Qfloor 0). by apply Qfloor_resp_le.
  - exists 0. split; [done|]. split; [|done]. by apply timeToFrame_nonpos.
Qed.




Lemma leb_of_Z (m n : Z) : m <= n -> leb (of_Z m) (of_Z n) = true.
Proof.
  intros H. unfold leb, of_Z. apply bool_decide_eq_true.
  unfold Qcle. rewrite !this_of_Z. by rewrite <- Zle_Qle.
Qed.

Lemma timeToFrame_PInf fps : timeToFrame PInf fps = PInf.
Proof.
  destruct (normalizeFps_pos fps) as (p & Hfps & Hp).
  unfold timeToFrame. rewrite Hfps.
  unfold or0, Math_max, mul, sign, inf_of_sign, Math_floor. simpl.
  rewrite bool_decide_eq_false_2 by (intros ?; qc_lra).
  rewrite bool_decide_eq_false_2 by (intros ->; qc_lra). done.
Qed.

(** X4: for a finite time [t >= 0], the frame [timeToFrame(t)] is the one
    that contains [t]: its start time is at most [t], and the start time of
    the next frame is greater than [t]. *)
Theorem timeToFrame_contains (a : Qc) (fps : num) :
  (0 <= a)%Qc ->
  let frame := timeToFrame (Fin a) fps in
  leb (frameToTime frame fps) (Fin a) = true
  /\ ltb (Fin a) (frameToTime (add frame (of_Z 1)) fps) = true.
Proof.
  intros Ha frame. subst frame.
  destruct (normalizeFps_pos fps) as (p & Hfps & Hp).
  rewrite (timeToFrame_Fin a p) by done.
  set (n := Qfloor (a * p)%Qc).
  assert (Hn0 : 0 <= n).
  { change 0 with (Qfloor 0). apply Qfloor_resp_le.
    assert (0 <= a * p)%Qc by (apply Qcmult_nonneg_nonneg; qc_lra). done. }
  assert (Hadd : add (of_Z n) (of_Z 1) = of_Z (n + 1)).
  { unfold add, of_Z. f_equal. apply Qc_is_canon.
    rewrite this_plus, !this_of_Z, inject_Z_plus. reflexivity. }
  rewrite Hadd, !(frameToTime_int _ fps p) by (done || lia).
  assert (Hp0 : p <> 0%Qc) by (intros ->; qc_lra).
  assert (Hlo : (Qc_of_Z n <= a * p)%Qc).
  { unfold Qcle. rewrite this_of_Z. apply Qfloor_le. }
  assert (Hhi : (a * p < Qc_of_Z (n + 1))%Qc).
  { unfold Qclt. rewrite this_of_Z. apply Qlt_floor. }
  split.
  - unfold leb. apply bool_decide_eq_true.
    apply (Qcmult_le_mono_pos_r _ _ p Hp).
    replace (Qc_of_Z n / p * p)%Qc with (Qc_of_Z n) by (field; done). done.
  - unfold ltb. apply bool_decide_eq_true.
    apply (Qcmult_lt_mono_pos_r _ _ p Hp).
    replace (Qc_of_Z (n + 1) / p * p)%Qc with (Qc_of_Z (n + 1))
      by (field; done). done.
Qed.

Lemma timeToFrame_contains_witness :
  let frame := timeToFrame (frac 5 2) (of_Z 24) in
  leb (frameToTime frame (of_Z 24)) (frac 5 2) = true
  /\ ltb (frac 5 2) (frameToTime (add frame (of_Z 1)) (of_Z 24)) = true.
Proof. apply (timeToFrame_contains (Q2Qc (5 # 2)) (of_Z 24)). done. Defined.

(** X5: [timeToFrame] is monotone in the time: a later time never gives an
    earlier frame. *)
Theorem timeToFrame_monotone (t1 t2 fps : num) :
  leb t1 t2 = true ->
  leb (timeToFrame t1 fps) (timeToFrame t2 fps) = true.
Proof.
  intros Hle.
  assert (Hge : forall t, t <> NaN ->
            leb (of_Z 0) (timeToFrame t fps) = true).
  { intros t Ht. destruct (decide (t = PInf)) as [->|Hinf].
    - by rewrite timeToFrame_PInf.
    - destruct (timeToFrame_is_frame t fps Hinf) as (n & Hn & -> & _).
      by apply leb_of_Z. }
  destruct (ltb zero t1) eqn:Hpos.
  - destruct (normalizeFps_pos fps) as (p & Hfps & Hp).
    destruct t1 as [a1| | |], t2 as [a2| | |]; try done.
    + unfold leb in Hle. apply bool_decide_eq_true in Hle.
      unfold ltb, zero in Hpos. apply bool_decide_eq_true in Hpos.
      rewrite (timeToFrame_Fin a1 p), (timeToFrame_Fin a2 p)
        by (done || qc_lra).
      apply leb_of_Z, Qfloor_resp_le.
      assert (a1 * p <= a2 * p)%Qc; [|done].
      apply Qcmult_le_mono_nonneg_r; [qc_lra | done].
    + rewrite timeToFrame_PInf.
      unfold ltb, zero in Hpos. apply bool_decide_eq_true in Hpos.
      rewrite (timeToFrame_Fin a1 p) by (done || qc_lra). done.
    + by rewrite timeToFrame_PInf.
  - rewrite (timeToFrame_nonpos t1) by done. apply Hge.
    intros ->. by destruct t1.
Qed.

Lemma timeToFrame_monotone_witness :
  leb (timeToFrame (of_Z 1) (of_Z 30)) (timeToFrame (frac 5 2) (of_Z 30))
  = true.
Proof. apply (timeToFrame_monotone (of_Z 1) (frac 5 2) (of_Z 30)). done. Defined.

(** X6: converting any frame number to a time and back gives the frame
    number floored and clamped at 0, which is the frame that [frameToTime]
    converts; this holds for every frame number and every fps. *)
Theorem frame_time_roundtrip_general (frameIndex fps : num) :
  timeToFrame (frameToTime frameIndex fps) fps
  = Math_max zero (Math_floor (or0 frameIndex)).
Proof.
  destruct (normalizeFps_pos fps) as (p & Hfps & Hp).
  assert (Hfin : forall a, timeToFrame (frameToTime (Fin a) fps) fps
                           = of_Z (Z.max 0 (Qfloor a))).
  { intros a. rewrite (frameToTime_Fin a p) by done.
    rewrite <- (frameToTime_int _ fps p) by (done || lia).
    apply frame_time_roundtrip_any. lia. }
  assert (Hnorm : forall a, Math_max zero (Math_floor (Fin a))
                            = of_Z (Z.max 0 (Qfloor a))).
  { intros a. unfold Math_floor.
    destruct (Z.max_spec 0 (Qfloor a)) as [[Hlt ->]|[Hle ->]].
    - apply max_zero_nonneg, Qc_of_Z_nonneg. lia.
    - rewrite of_Z_0. apply Math_max_zero_nonpos; [|done].
      unfold ltb, zero, of_Z. apply bool_decide_eq_false.
      assert (0 <= Qc_of_Z (- Qfloor a))%Qc by (apply Qc_of_Z_nonneg; lia).
      qc_prep. rewrite inject_Z_opp in *. lra. }
  destruct frameIndex as [a| | |].
  - by rewrite Hfin, or0_Fin, Hnorm.
  - assert (frameToTime PInf fps = PInf) as ->.
    { unfold frameToTime. rewrite Hfps.
      unfold or0, Math_floor, Math_max, div, sign, inf_of_sign. simpl.
      by rewrite bool_decide_eq_false_2 by (intros ?; qc_lra). }
    by rewrite timeToFrame_PInf.
  - assert (frameToTime NInf fps = frameToTime zero fps) as -> by done.
    unfold zero at 1. rewrite Hfin. exact of_Z_0.
  - assert (frameToTime NaN fps = frameToTime zero fps) as -> by done.
    unfold zero at 1. rewrite Hfin.
    change (or0 NaN) with (Fin 0%Qc). by rewrite Hnorm.
Qed.

(** ** Effective durations *)



Lemma sub_zero_r x : sub x zero = x.
Proof.
  destruct x as [a| | |]; try done. unfold sub, neg, add, zero.
  f_equal. ring.
Qed.

(** X8: a segment created from a file starts at [in = 0] with [out] equal
    to its duration; its effective duration is the metadata duration
    clamped at 0 (0 without metadata); and it is a valid segment when the
    metadata duration is finite and not negative. *)
Theorem createSegmentFromFile_spec (env : ambient) (url : string)
    (f : file) (md : option metadata) :
  let s := createSegmentFromFile env url f md in
  seg_in s = zero /\ seg_out s = Some (seg_duration s)
  /\ computeSegmentDuration (Some s)
     = Math_max zero (or0 (Number (md ≫= md_duration)))
  /\ (md = None -> computeSegmentDuration (Some s) = zero)
  /\ (forall d, md ≫= md_duration = Some (Fin d) -> (0 <= d)%Qc ->
      valid_segment s = true).
Proof.
  intros s.
  assert (Hdur : computeSegmentDuration (Some s)
                 = Math_max zero (or0 (Number (md ≫= md_duration)))).
  { unfold computeSegmentDuration, s, createSegmentFromFile.
    cbn [seg_in seg_out seg_duration Number].
    set (d := or0 (Number (md ≫= md_duration))).
    change (or0 zero) with zero. pose proof (or0_not_NaN (Number (md ≫= md_duration))) as Hnan.
    fold d in Hnan. rewrite (or0_id d) by done. rewrite sub_zero_r.
    destruct d as [a| | |]; try done. cbn [Number_isFinite andb].
    unfold gtb, Math_max. by destruct (ltb zero (Fin a)). }
  split; [done|]. split; [done|]. split; [done|]. split.
  - intros ->. rewrite Hdur. done.
  - intros d Hd Hd0. unfold valid_segment, s, createSegmentFromFile.
    cbn [seg_in seg_out seg_duration]. rewrite Hd. cbn [Number].
    rewrite or0_Fin. unfold zero.
    rewrite !bool_decide_eq_true_2; [done | apply Qcle_refl | done | apply Qcle_refl].
Qed.

(** ** Valid segments *)





(** ** Offsets and located times *)

Lemma getSegmentOffset_loop_spec l : forall (n i : nat) off,
  getSegmentOffset_loop l off i n
  = add off (sum_durations (take n (drop i l))).
Proof.
  induction n as [|n IH]; intros i off.
  - simpl. by rewrite add_zero_r.
  - cbn [getSegmentOffset_loop]. rewrite IH.
    destruct (l !! i) as [s|] eqn:Hi.
    + rewrite (drop_S _ _ _ Hi). cbn [take].
      change (sum_durations (s :: ?k))
        with (add (computeSegmentDuration (Some s)) (sum_durations k)).
      by rewrite add_assoc.
    + apply lookup_ge_None in Hi.
      rewrite !drop_ge by lia. rewrite !take_nil.
      cbn [computeSegmentDuration]. by rewrite add_zero_r.
Qed.

Lemma getSegmentOffset_eq l (index : Z) :
  getSegmentOffset l index = sum_durations (take (Z.to_nat index) l).
Proof.
  unfold getSegmentOffset. rewrite getSegmentOffset_loop_spec.
  by rewrite drop_0, add_zero_l.
Qed.

(** X10: [getSegmentOffset(segments, index)] is the total of the timeline
    of the first [index] segments, hence the start of range [index] of
    [computeTimeline(segments)]; it is 0 for an index that is not positive
    and the whole total for an index at or past the end. *)
Theorem getSegmentOffset_spec (l : list segment) (index : Z) :
  getSegmentOffset l index = total (computeTimeline (take (Z.to_nat index) l))
  /\ (forall r, 0 <= index ->
        ranges (computeTimeline l) !! Z.to_nat index = Some r ->
        r_start r = getSegmentOffset l index)
  /\ (index <= 0 -> getSegmentOffset l index = zero)
  /\ (Z.of_nat (length l) <= index ->
      getSegmentOffset l index = total (computeTimeline l)).
Proof.
  rewrite !total_eq, getSegmentOffset_eq. split; [done|]. split; [|split].
  - intros r _ Hr. rewrite computeTimeline_eq in Hr. cbn [ranges] in Hr.
    destruct (l !! Z.to_nat index) as [s|] eqn:Hs.
    + rewrite (ranges_from_lookup _ _ _ _ Hs) in Hr. injection Hr as <-.
      cbn [r_start]. by rewrite add_zero_l.
    + apply lookup_ge_None in Hs. apply lookup_lt_Some in Hr.
      rewrite length_ranges_from in Hr. lia.
  - intros Hle. by replace (Z.to_nat index) with 0%nat by lia.
  - intros Hge. rewrite take_ge by lia. done.
Qed.

Lemma find_loop_valid (clamped T : num) (l : list segment) :
  forall rest pre start,
    l = pre ++ rest -> rest <> [] ->
    start = sum_durations pre ->
    exists (j : nat) s,
      l !! j = Some s
      /\ find_loop clamped T (length l) (length pre) (ranges_from start rest)
         = Located (Z.of_nat j) (Some s)
                   (sub clamped (sum_durations (take j l)))
                   (sum_durations (take j l)) clamped T.
Proof.
  induction rest as [|s rest IH]; intros pre start Hl Hne Hstart; [done|].
  assert (Hs : l !! length pre = Some s).
  { subst l. by apply list_lookup_middle. }
  assert (Htake : take (length pre) l = pre).
  { subst l. by rewrite take_app_length. }
  cbn [ranges_from find_loop r_end r_start r_segment].
  destruct (leb clamped _ || (length pre =? length l - 1)%nat) eqn:Htest.
  - exists (length pre), s. rewrite Htake, <- Hstart. done.
  - apply orb_false_iff in Htest as [_ Hlast]. apply Nat.eqb_neq in Hlast.
    assert (Hrest : rest <> []).
    { intros ->. subst l. rewrite length_app in Hlast. simpl in Hlast. lia. }
    destruct (IH (pre ++ [s])
                (add start (computeSegmentDuration (Some s))))
      as (j & s' & Hj & Hfind).
    + by rewrite <- app_assoc.
    + done.
    + rewrite sum_durations_app, Hstart.
      change (sum_durations [s])
        with (add (computeSegmentDuration (Some s)) zero).
      by rewrite add_zero_r.
    + exists j, s'. split; [done|].
      rewrite length_app in Hfind. simpl in Hfind.
      by rewrite Nat.add_1_r in Hfind.
Qed.

(** X11: on a non-empty list [findSegmentAtTime] always finds a segment,
    whatever the time and the fields of the segments hold: the index is a
    valid index, the segment is the one at that index, the offset is
    [getSegmentOffset] of that index, and the local time is the clamped
    time minus the offset.  The index is [-1] only for the empty list. *)
Theorem findSegmentAtTime_valid (l : list segment) (t : num) :
  let loc := findSegmentAtTime l t in
  (l = [] -> index loc = -1 /\ segment_of loc = None)
  /\ (l <> [] ->
      exists (j : nat) s,
        index loc = Z.of_nat j /\ (j < length l)%nat
        /\ l !! j = Some s /\ segment_of loc = Some s
        /\ offset loc = getSegmentOffset l (index loc)
        /\ time loc = clamp (or0 t) zero (total (computeTimeline l))
        /\ localTime loc = sub (time loc) (offset loc)
        /\ total_of loc = total (computeTimeline l)).
Proof.
  intros loc. subst loc. split; [by intros ->|]. intros Hne.
  unfold findSegmentAtTime. rewrite computeTimeline_eq. cbn [ranges total].
  rewrite length_ranges_from.
  destruct (Nat.eqb_spec (length l) 0) as [H0|_].
  { destruct l; [done | simpl in H0; lia]. }
  destruct (find_loop_valid (clamp (or0 t) zero (sum_durations l))
              (sum_durations l) l l [] zero)
    as (j & s & Hj & Hfind); [done..|].
  simpl in Hfind. rewrite Hfind. exists j, s.
  cbn [index segment_of offset time localTime total_of].
  rewrite getSegmentOffset_eq, Nat2Z.id.
  repeat (split; [done|]). split; [|done]. by eapply lookup_lt_Some.
Qed.



Lemma clamp_mono x y T cx cy :
  leb x y = true ->
  clamp x zero (Fin T) = Fin cx -> clamp y zero (Fin T) = Fin cy ->
  (cx <= cy)%Qc.
Proof.
  unfold clamp, Math_min, Math_max, zero, leb, ltb.
  destruct x as [a| | |], y as [b| | |]; try done; simpl; intros Hle;
    try apply bool_decide_eq_true in Hle;
    repeat (case_bool_decide; simpl); intros [= <-] [= <-]; qc_lra.
Qed.


Lemma findSegmentAtTime_clamped l t c :
  finite_segments l ->
  clamp (or0 t) zero (Fin (sumq l)) = Fin c ->
  (0 <= c)%Qc -> (c <= sumq l)%Qc ->
  findSegmentAtTime l t = findSegmentAtTime l (Fin c).
Proof.
  intros Hfin Hc Hc0 HcT. destruct (sum_finite l Hfin) as [Hsum _].
  unfold findSegmentAtTime. rewrite computeTimeline_eq. cbn [ranges total].
  rewrite Hsum, Hc, or0_Fin. by rewrite clamp_in_range.
Qed.

(** X13: on a list of finite segments, the index that [findSegmentAtTime]
    returns is monotone in the time: a later time never resolves to an
    earlier segment. *)
Theorem findSegmentAtTime_monotone (l : list segment) (t1 t2 : num) :
  finite_segments l -> leb t1 t2 = true ->
  index (findSegmentAtTime l t1) <= index (findSegmentAtTime l t2).
Proof.
  intros Hfin Hle. destruct l as [|s0 l0]; [done|].
  set (l := s0 :: l0) in *.
  destruct (sum_finite l Hfin) as [Hsum HT].
  assert (Hn1 : t1 <> NaN) by (intros ->; done).
  assert (Hn2 : t2 <> NaN) by (intros ->; by destruct t1).
  destruct (clamp_range (or0 t1) (sumq l) (or0_not_NaN _) HT)
    as (c1 & Hc1 & Hc10 & Hc1T).
  destruct (clamp_range (or0 t2) (sumq l) (or0_not_NaN _) HT)
    as (c2 & Hc2 & Hc20 & Hc2T).
  assert (Hc : (c1 <= c2)%Qc).
  { eapply (clamp_mono (or0 t1) (or0 t2)); [|done..].
    by rewrite !or0_id. }
  rewrite (findSegmentAtTime_clamped l t1 c1), (findSegmentAtTime_clamped l t2 c2)
    by done.
  destruct (findSegmentAtTime_located l c1 Hfin ltac:(done) Hc10 Hc1T)
    as (j1 & s1 & Hj1 & -> & Hend1 & Hbefore1).
  destruct (findSegmentAtTime_located l c2 Hfin ltac:(done) Hc20 Hc2T)
    as (j2 & s2 & Hj2 & -> & Hend2 & Hbefore2).
  cbn [index]. apply inj_le.
  destruct (Nat.le_gt_cases j1 j2) as [|Hgt]; [done|]. exfalso.
  specialize (Hbefore1 j2 Hgt). qc_lra.
Qed.

Lemma findSegmentAtTime_monotone_witness :
  let l := [Segment "a" "" (of_Z 4) (of_Z 0) (Some (of_Z 4)) "clip";
            Segment "b" "" (of_Z 3) (of_Z 0) (Some (of_Z 3)) "clip"] in
  index (findSegmentAtTime l (of_Z 2)) <= index (findSegmentAtTime l (of_Z 5)).
Proof.
  intros l. apply (findSegmentAtTime_monotone l (of_Z 2) (of_Z 5)).
  - by repeat constructor.
  - done.
Defined.

(** ** The shape of a spliced list *)

Lemma findSegmentAtTime_found (l : list segment) (t : num) :
  l <> [] ->
  exists (j : nat) s,
    l !! j = Some s
    /\ index (findSegmentAtTime l t) = Z.of_nat j
    /\ segment_of (findSegmentAtTime l t) = Some s.
Proof.
  intros Hne. unfold findSegmentAtTime.
  rewrite computeTimeline_eq. cbn [ranges total]. rewrite length_ranges_from.
  destruct (Nat.eqb_spec (length l) 0) as [H0|_].
  { destruct l; [done | simpl in H0; lia]. }
  destruct (find_loop_valid (clamp (or0 t) zero (sum_durations l))
              (sum_durations l) l l [] zero)
    as (j & s & Hj & Hfind); [done..|].
  simpl in Hfind. rewrite Hfind. by exists j, s.
Qed.

(** X14: with a new segment present, the result of [spliceSegments] is a
    prefix of the input list, then at most one input segment with only its
    [out] changed, then the new segment: it always ends with the new
    segment, has at most one element more than the input, and its ids are
    a prefix of the input ids followed by the new id.  This holds for every
    list and cut time, finite or not. *)
Theorem spliceSegments_shape (l : list segment) (cutTime : num) (x : segment) :
  exists (k : nat) (trimmed : list segment),
    spliceSegments l cutTime (Some x) = take k l ++ trimmed ++ [x]
    /\ (k + length trimmed <= length l)%nat
    /\ (trimmed = []
        \/ exists s e, l !! k = Some s /\ trimmed = [with_out s e])
    /\ seg_id <$> spliceSegments l cutTime (Some x)
       = take (k + length trimmed) (seg_id <$> l) ++ [seg_id x].
Proof.
  assert (Hnil : exists (k : nat) (trimmed : list segment),
    [x] = take k l ++ trimmed ++ [x]
    /\ (k + length trimmed <= length l)%nat
    /\ (trimmed = []
        \/ exists s e, l !! k = Some s /\ trimmed = [with_out s e])
    /\ seg_id <$> [x]
       = take (k + length trimmed) (seg_id <$> l) ++ [seg_id x]).
  { exists 0%nat, []. simpl. repeat split; [lia | by left]. }
  unfold spliceSegments.
  destruct (Nat.eqb_spec (length l) 0) as [H0|Hlen]; [done|].
  destruct (leb _ zero); [done|].
  assert (Hne : l <> []) by (intros ->; done).
  set (c := clamp (or0 cutTime) zero (total (computeTimeline l))).
  destruct (findSegmentAtTime_found l c Hne) as (j & s & Hj & -> & ->).
  destruct (Z.ltb_spec (Z.of_nat j) 0) as [Hneg|_]; [lia|].
  rewrite Nat2Z.id. pose proof (lookup_lt_Some _ _ _ Hj) as Hlt.
  set (e := add (or0 (seg_in s)) (localTime (findSegmentAtTime l c))).
  destruct (gtb e (or0 (seg_in s))).
  - exists j, [with_out s e]. rewrite <- app_assoc. split; [done|].
    split; [simpl; lia|]. split; [right; by exists s, e|].
    rewrite !fmap_app. cbn [fmap list_fmap with_out seg_id length].
    rewrite Nat.add_1_r.
    rewrite (take_S_r (seg_id <$> l) j (seg_id s))
      by (by rewrite list_lookup_fmap, Hj).
    by rewrite fmap_take, <- app_assoc.
  - exists j, []. split; [done|]. split; [simpl; lia|].
    split; [by left|].
    rewrite fmap_app, fmap_take. simpl. by rewrite Nat.add_0_r.
Qed.

(** ** Locating times in a spliced list *)

Section Spliced.

(** the list [take j l ++ [s'; x]] that a cut [c] inside or at the end of
    segment [j] of [l] produces *)
Variables (l : list segment) (j : nat) (s x : segment) (c : Qc).
Hypothesis Hfin : finite_segments l.
Hypothesis Hx : finite_segment x = true.
Hypothesis Hj : l !! j = Some s.
Hypothesis Hstart : (sumq (take j l) < c)%Qc.
Hypothesis Hend : (c <= sumq (take (S j) l))%Qc.

Let s' : segment :=
  with_out s (add (seg_in s) (Fin (c - sumq (take j l)))).
Let r : list segment := take j l ++ [s'] ++ [x].












End Spliced.












(** ** Capturing, removing and resolving bookmarks *)

Lemma find_app_none {A} (P : A -> bool) l1 l2 :
  Forall (fun a => P a = false) l1 -> find P (l1 ++ l2) = find P l2.
Proof. induction 1 as [|a l1 Ha _ IH]; simpl; [done|]. by rewrite Ha. Qed.

Lemma createBookmark_id_not_empty env t fps img :
  falsy_id (Some (bm_id (createBookmark env t fps img))) = false.
Proof. done. Qed.

(** X18: a bookmark that [captureFrame] appends resolves to its own time
    when no earlier bookmark has its id: the time is the captured time
    clamped at 0 ([NaN] counts as 0), for every captured time other than
    [+Infinity]. *)
Theorem captureFrame_resolves (env : ambient) (bookmarks : list bookmark)
    (currentTime fps : num) (dataUrl : string) :
  let b := createBookmark env currentTime fps (Some dataUrl) in
  currentTime <> PInf ->
  Forall (fun b' => bm_id b' <> bm_id b) bookmarks ->
  resolveBookmarkTime
    (captureFrame_bookmarks env bookmarks currentTime fps dataUrl)
    (Some (bm_id b))
  = Some (Math_max zero (or0 currentTime))
  /\ leb zero (Math_max zero (or0 currentTime)) = true.
Proof.
  intros b Ht Hfresh. unfold resolveBookmarkTime, captureFrame_bookmarks.
  fold b. change (falsy_id (Some (bm_id b))) with false. cbv iota.
  rewrite find_app_none.
  2:{ eapply Forall_impl; [exact Hfresh|]. simpl. intros b' Hb'.
      apply bool_decide_eq_false. congruence. }
  cbn [find]. rewrite bool_decide_eq_true_2 by done.
  assert (Htime : bm_time b = Math_max zero (or0 currentTime)) by done.
  rewrite Htime.
  assert (Hfin : exists a, Math_max zero (or0 currentTime) = Fin a
                           /\ (0 <= a)%Qc).
  { pose proof (or0_not_NaN currentTime) as Hnan.
    assert (Hinf : or0 currentTime <> PInf).
    { unfold or0. destruct (truthy currentTime); [done|]. done. }
    unfold Math_max, zero, ltb in *.
    destruct (or0 currentTime) as [a| | |]; try done.
    - case_bool_decide; eexists; (split; [done|]); qc_lra.
    - exists 0%Qc. split; [done | apply Qcle_refl]. }
  destruct Hfin as (a & -> & Ha). split; [done|].
  unfold leb, zero. by apply bool_decide_eq_true.
Qed.

Lemma captureFrame_resolves_witness :
  let env := Ambient 1700000000000 (Q2Qc (1 # 2)) in
  let b := createBookmark env (frac 5 2) (of_Z 20) (Some "data:") in
  resolveBookmarkTime
    (captureFrame_bookmarks env [] (frac 5 2) (of_Z 20) "data:")
    (Some (bm_id b))
  = Some (Math_max zero (or0 (frac 5 2)))
  /\ leb zero (Math_max zero (or0 (frac 5 2))) = true.
Proof.
  intros env. apply (captureFrame_resolves env [] (frac 5 2) (of_Z 20) "data:").
  - done.
  - constructor.
Defined.

(** X19: after the remove action for an id, that id no longer resolves,
    and every other identifier resolves as before. *)
Theorem remove_bookmarks_resolve (bookmarks : list bookmark) (id : string) :
  resolveBookmarkTime (remove_bookmarks bookmarks id) (Some id) = None
  /\ forall other, other <> Some id ->
       resolveBookmarkTime (remove_bookmarks bookmarks id) other
       = resolveBookmarkTime bookmarks other.
Proof.
  unfold resolveBookmarkTime, remove_bookmarks. split.
  - destruct (falsy_id (Some id)); [done|].
    assert (find (fun entry => bool_decide (Some (bm_id entry) = Some id))
              (filter (fun entry => bm_id entry <> id) bookmarks) = None)
      as ->; [|done].
    induction bookmarks as [|b rest IH]; [done|].
    rewrite filter_cons. case_decide as Hb; [|done].
    cbn [find]. rewrite bool_decide_eq_false_2 by congruence. done.
  - intros other Hother. destruct (falsy_id other); [done|].
    assert (find (fun entry => bool_decide (Some (bm_id entry) = other))
              (filter (fun entry => bm_id entry <> id) bookmarks)
            = find (fun entry => bool_decide (Some (bm_id entry) = other))
                bookmarks) as ->; [|done].
    induction bookmarks as [|b rest IH]; [done|].
    rewrite filter_cons. case_decide as Hb; cbn [find].
    + by rewrite IH.
    + rewrite IH. rewrite bool_decide_eq_false_2; [done|].
      intros <-. apply Hother. by rewrite Hb.
Qed.

(** ** Export settings *)

Lemma split_head_no_semicolon s : no_semicolon (split_head s) = true.
Proof.
  induction s as [|c s IH]; [done|]. simpl.
  destruct (Ascii.eqb c ";"%char) eqn:Hc; [done|]. simpl. by rewrite Hc.
Qed.

Lemma split_head_prefix s :
  exists rest, s = split_head s +:+ rest
    /\ (rest = "" \/ exists rest', rest = String ";"%char rest').
Proof.
  induction s as [|c s (rest & Hs & Hrest)].
  - exists "". split; [done | by left].
  - simpl. destruct (Ascii.eqb_spec c ";"%char) as [->|Hc].
    + exists (String ";"%char s). split; [done | right; by eexists].
    + exists rest. split; [|done].
      change (String c s = String c (split_head s +:+ rest)). by f_equal.
Qed.

(** X20: the export settings always carry the extension [webm], a mime
    type that is not empty, and a base type that is not empty and holds no
    [";"]; the mime type is the requested one only if the host, when it can
    tell, supports it, and is [video/webm] otherwise; the base type is the
    part of the mime type before its parameters, or [video/webm] when that
    part is empty. *)
Theorem getExportSettings_spec (isTypeSupported : option (string -> bool))
    (formatValue : option string) :
  let r := getExportSettings isTypeSupported formatValue in
  extension r = "webm"
  /\ mimeType r <> ""
  /\ (mimeType r = "video/webm"
      \/ (formatValue = Some (mimeType r)
          /\ forall f, isTypeSupported = Some f -> f (mimeType r) = true))
  /\ baseType r <> "" /\ no_semicolon (baseType r) = true
  /\ ((exists rest, mimeType r = baseType r +:+ rest
         /\ (rest = "" \/ exists rest', rest = String ";"%char rest'))
      \/ (baseType r = "video/webm"
          /\ exists rest', mimeType r = String ";"%char rest')).
Proof.
  intros r. subst r. unfold getExportSettings. cbn [extension mimeType baseType].
  set (requested := match formatValue with
                    | Some s => if bool_decide (s = "") then "video/webm" else s
                    | None => "video/webm" end).
  set (mime := match isTypeSupported with
               | Some supported =>
                   if supported requested then requested else "video/webm"
               | None => requested end).
  assert (Hreq : requested = "video/webm"
                 \/ (formatValue = Some requested /\ requested <> "")).
  { subst requested. destruct formatValue as [s|]; [|by left].
    case_bool_decide; [by left | by right]. }
  assert (Hmime : mime = "video/webm"
                  \/ (formatValue = Some mime /\ mime <> ""
                      /\ forall f, isTypeSupported = Some f -> f mime = true)).
  { subst mime. destruct isTypeSupported as [f|].
    - destruct (f requested) eqn:Hf; [|by left].
      destruct Hreq as [?|[? ?]]; [by left|]. right.
      repeat split; [done..|]. by intros ? [= <-].
    - destruct Hreq as [?|[? ?]]; [by left|]. right. by repeat split. }
  clearbody mime. clear Hreq.
  split; [done|]. split.
  { destruct Hmime as [->|(_ & ? & _)]; done. }
  split.
  { destruct Hmime as [?|(? & _ & ?)]; [by left | by right]. }
  case_bool_decide as Hhead.
  - split; [done|]. split; [done|]. right. split; [done|].
    destruct (split_head_prefix mime) as (rest & Hm & Hrest).
    rewrite Hhead in Hm. change ("" +:+ rest) with rest in Hm. subst rest.
    destruct Hrest as [->|[rest' ->]]; [|by eexists].
    destruct Hmime as [Hm|(_ & ? & _)]; done.
  - split; [done|]. split; [apply split_head_no_semicolon|].
    left. apply split_head_prefix.
Qed.

(** ** The timeline controller *)

Lemma sync_state (c : controller) (v : video) :
  (sync c v).1.1 = c
  \/ (sync c v).1.1 = Controller (activeIndex c) (ctl_segments c) false
  \/ ((sync c v).1.1
      = Controller (activeIndex c + 1) (ctl_segments c) (playing c)
      /\ 0 <= activeIndex c < Z.of_nat (length (ctl_segments c)) - 1).
Proof.
  unfold sync.
  destruct (length (ctl_segments c) =? 0)%nat; [by left|].
  unfold at_index.
  destruct (Z.ltb_spec (activeIndex c) 0) as [Hneg|Hpos]; [by left|].
  destruct (ctl_segments c !! Z.to_nat (activeIndex c)) as [s|]; [|by left].
  destruct (leb _ (v_currentTime v)); [|by left].
  destruct (Z.ltb_spec (activeIndex c) (Z.of_nat (length (ctl_segments c)) - 1))
    as [Hlt|Hge].
  - right. right. split; [done | lia].
  - right. by left.
Qed.

(** X21: the active index of the controller is a valid index whenever
    there are segments: initially, after [setSegments], and after [seek];
    [sync] keeps it valid, never moves it back and advances it by at most
    one, and never changes the segments. *)
Theorem controller_index_valid (c : controller) (v : video) (t : num)
    (nextSegments : list segment) :
  controller_ok createTimelineController
  /\ controller_ok (setSegments c nextSegments)
  /\ controller_ok (seek c v t).1
  /\ (controller_ok c -> controller_ok (sync c v).1.1)
  /\ activeIndex c <= activeIndex (sync c v).1.1 <= activeIndex c + 1
  /\ ctl_segments (sync c v).1.1 = ctl_segments c.
Proof.
  split; [by left|]. split.
  { unfold setSegments, controller_ok. cbn [ctl_segments activeIndex].
    destruct nextSegments; [by left | right; simpl; lia]. }
  split.
  { unfold seek. destruct (Nat.eqb_spec (length (ctl_segments c)) 0) as [H0|Hn].
    - left. simpl. by destruct (ctl_segments c).
    - assert (Hne : ctl_segments c <> []) by (intros Hnil; by rewrite Hnil in Hn).
      destruct (findSegmentAtTime_found (ctl_segments c) t Hne)
        as (j & s & Hj & Hi & _).
      right. cbn [fst activeIndex ctl_segments]. rewrite Hi.
      apply lookup_lt_Some in Hj. lia. }
  destruct (sync_state c v) as [->|[->|[-> Hlt]]];
    cbn [activeIndex ctl_segments].
  - repeat split; (done || lia).
  - split; [|split; [lia | done]].
    unfold controller_ok. cbn [activeIndex ctl_segments]. done.
  - split; [|split; [lia | done]].
    intros _. right. cbn [activeIndex ctl_segments]. lia.
Qed.




(** X23: on a segment with finite [duration] and [in] whose end
    [Number(out) || duration || 0] is not negative, [loadSegmentIntoVideo]
    sets the element's [currentTime] exactly once, to a time between 0 and
    that end, whatever local time it is given; it sets [src] and reloads
    only when the element shows another source, and plays only when asked
    to. *)
Theorem loadSegmentIntoVideo_commands (v : video) (s : segment)
    (localTime : num) (autoplay : bool) :
  finite_segment s = true -> leb zero (segmentEnd s) = true ->
  exists t,
    loadSegmentIntoVideo v (Some s) localTime autoplay
    = (if bool_decide (v_src v <> seg_source s)
       then [SetSrc (seg_source s); Load] else [])
      ++ [SetCurrentTime t] ++ (if autoplay then [Play] else [])
    /\ leb zero t = true /\ leb t (segmentEnd s) = true.
Proof.
  intros Hs Hend.
  exists (clamp (add (or0 (seg_in s)) (or0 localTime)) zero (segmentEnd s)).
  split.
  { unfold loadSegmentIntoVideo. by case_bool_decide. }
  destruct (finite_in s Hs) as [i ->]. rewrite or0_Fin.
  pose proof (or0_not_NaN localTime) as Hlt.
  assert (Htarget : add (Fin i) (or0 localTime) <> NaN).
  { by destruct (or0 localTime). }
  destruct (segmentEnd s) as [h| | |]; try done.
  - unfold leb, zero in Hend. apply bool_decide_eq_true in Hend.
    destruct (clamp_range _ h Htarget Hend) as (c & -> & Hc0 & Hch).
    unfold leb, zero. by rewrite !bool_decide_eq_true_2.
  - destruct (add (Fin i) (or0 localTime)) as [a| | |]; try done.
    unfold clamp, Math_min, Math_max, zero, ltb, leb.
    case_bool_decide; simpl; split; try done;
      apply bool_decide_eq_true; qc_lra.
Qed.

Lemma loadSegmentIntoVideo_commands_witness :
  let s := Segment "a" "url" (of_Z 4) (of_Z 1) (Some (of_Z 3)) "clip" in
  exists t,
    loadSegmentIntoVideo (Video "" zero) (Some s) (of_Z 9) true
    = (if bool_decide (v_src (Video "" zero) <> seg_source s)
       then [SetSrc (seg_source s); Load] else [])
      ++ [SetCurrentTime t] ++ (if true then [Play] else [])
    /\ leb zero t = true /\ leb t (segmentEnd s) = true.
Proof.
  intros s.
  apply (loadSegmentIntoVideo_commands (Video "" zero) s (of_Z 9) true).
  - done.
  - by vm_compute.
Defined.

(** ** Timelines of appended lists *)



(** X25: the ranges of a timeline leave no gap and do not overlap: the
    first range starts at 0, every further range starts where the range
    before it ends, and the last range ends at the total. *)
Theorem computeTimeline_contiguous (l : list segment) :
  (forall r, ranges (computeTimeline l) !! 0%nat = Some r -> r_start r = zero)
  /\ (forall (i : nat) r1 r2,
        ranges (computeTimeline l) !! i = Some r1 ->
        ranges (computeTimeline l) !! S i = Some r2 ->
        r_start r2 = r_end r1)
  /\ (forall r, last (ranges (computeTimeline l)) = Some r ->
        r_end r = total (computeTimeline l)).
Proof.
  rewrite computeTimeline_eq. cbn [ranges total].
  assert (Hlook : forall (i : nat) r, ranges_from zero l !! i = Some r ->
            exists s, l !! i = Some s
              /\ r_start r = sum_durations (take i l)
              /\ r_end r = sum_durations (take (S i) l)).
  { intros i r Hr. destruct (l !! i) as [s|] eqn:Hs.
    - rewrite (ranges_from_lookup _ _ _ _ Hs) in Hr. injection Hr as <-.
      exists s. cbn [r_start r_end]. rewrite add_zero_l. repeat split.
      rewrite (take_S_r _ _ _ Hs), sum_durations_app.
      change (sum_durations [s])
        with (add (computeSegmentDuration (Some s)) zero).
      by rewrite add_zero_r.
    - apply lookup_ge_None in Hs. apply lookup_lt_Some in Hr.
      rewrite length_ranges_from in Hr. lia. }
  split; [|split].
  - intros r Hr. by destruct (Hlook _ _ Hr) as (s & _ & -> & _).
  - intros i r1 r2 H1 H2.
    destruct (Hlook _ _ H1) as (s1 & _ & _ & ->).
    by destruct (Hlook _ _ H2) as (s2 & _ & -> & _).
  - intros r Hr. rewrite last_lookup, length_ranges_from in Hr.
    destruct (Hlook _ _ Hr) as (s & Hs & _ & ->).
    apply lookup_lt_Some in Hs. rewrite take_ge by lia. done.
Qed.
